(** * Paillier homomorphic encryption: the arithmetic core of [lib/paillier.ts]

    A shallow embedding of the BigInt code of [src/ui/lib/paillier.ts] and
    the properties of its key generation, encryption, decryption and
    homomorphic combinators.

    BigInt values are modelled as [Z].  The BigInt operators [/] and [%]
    truncate toward zero ([Z.quot] and [Z.rem]) and throw a [RangeError]
    when the divisor is [0n]; every [throw] of the source is a constructor
    of [exn].  The bytes delivered by [crypto.getRandomValues] are read
    from an explicit tape. *)

From Stdlib Require Import ZArith Zpow_facts List Lia Permutation Bool.
From Stdlib Require Import Sorted.
From Stdlib Require String DecimalString.
From Stdlib.Strings Require Import Byte.
From Equations Require Import Equations.
From Equations.Prop Require Import Logic.
Import ListNotations.

Local Open Scope Z_scope.

(** ** Exceptions and results *)

(** What the code throws: the [RangeError] of a BigInt [/] or [%] by
    [0n]; the [Error] "Modular inverse does not exist" of [modInverse]; and
    the [Error] "Invalid prime pair: ..." of [generateKeyPair], whose
    message reports [n], [lambda] and [gcd(n, lambda)]. *)
Inductive exn : Type :=
| RangeError_DivisionByZero
| Error_ModularInverseDoesNotExist
| Error_InvalidPrimePair (n lambda g : Z).

Inductive res (A : Type) : Type :=
| Ret (a : A)
| Throw (e : exn).
Arguments Ret {A} a.
Arguments Throw {A} e.

Definition bind {A B : Type} (m : res A) (k : A -> res B) : res B :=
  match m with
  | Ret a => k a
  | Throw e => Throw e
  end.

Definition res_map {A B : Type} (f : A -> B) (m : res A) : res B :=
  bind m (fun a => Ret (f a)).

Declare Scope res_scope.
Delimit Scope res_scope with res.
Notation "'let*' x ':=' m 'in' k" := (bind m (fun x => k))
  (at level 10, x name, m at level 100, k at level 200) : res_scope.
Local Open Scope res_scope.

(** BigInt [a % b] and [a / b]. *)
Definition bigint_rem (a b : Z) : res Z :=
  if b =? 0 then Throw RangeError_DivisionByZero else Ret (Z.rem a b).

Definition bigint_div (a b : Z) : res Z :=
  if b =? 0 then Throw RangeError_DivisionByZero else Ret (Z.quot a b).

(** ** Number-theory primitives *)

(** The [while (exp > 0n)] loop of [modPow]; [exp % 2n] and [exp / 2n]
    have the non-zero literal [2n] as divisor and cannot throw.  The
    parameter [mod] of the source is [md] here. *)
Equations? modPow_loop (result base exp md : Z) : res Z by wf (Z.to_nat exp) lt :=
  modPow_loop result base exp md with Z_gt_dec exp 0 := {
    | left _ =>
        let* result' :=
          (if Z.rem exp 2 =? 1 then bigint_rem (result * base) md else Ret result) in
        let* base' := bigint_rem (base * base) md in
        modPow_loop result' base' (Z.quot exp 2) md
    | right _ => Ret result }.
Proof.
  assert (Z.quot exp 2 < exp) by (apply Z.quot_lt; lia).
  assert (0 <= Z.quot exp 2) by (apply Z.quot_pos; lia).
  lia.
Qed.

Definition modPow (base exp md : Z) : res Z :=
  let result := 1 in
  let* base := bigint_rem base md in
  modPow_loop result base exp md.

(** The object [{ gcd, x, y }] that [extendedGcd] returns. *)
Record EGcd : Type := mkEGcd { eg_gcd : Z; eg_x : Z; eg_y : Z }.

(** [extendedGcd] tests [a === 0n] before it divides by [a]. *)
Equations? extendedGcd (a b : Z) : EGcd by wf (Z.abs_nat a) lt :=
  extendedGcd a b with Z.eq_dec a 0 := {
    | left _ => {| eg_gcd := b; eg_x := 0; eg_y := 1 |}
    | right _ =>
        let r := extendedGcd (Z.rem b a) a in
        {| eg_gcd := eg_gcd r;
           eg_x := eg_y r - Z.quot b a * eg_x r;
           eg_y := eg_x r |} }.
Proof.
  pose proof (Z.rem_bound_abs b a ltac:(assumption)). lia.
Qed.

Definition modInverse (a md : Z) : res Z :=
  let* a' := bigint_rem a md in
  let r := extendedGcd a' md in
  if negb (eg_gcd r =? 1) then Throw Error_ModularInverseDoesNotExist
  else
    let* x1 := bigint_rem (eg_x r) md in
    bigint_rem (x1 + md) md.

(** The [while (b !== 0n)] loop of [gcd]: [a % b] is only evaluated with
    [b] non-zero. *)
Equations? gcd (a b : Z) : Z by wf (Z.abs_nat b) lt :=
  gcd a b with Z.eq_dec b 0 := {
    | left _ => a
    | right _ => gcd b (Z.rem a b) }.
Proof.
  pose proof (Z.rem_bound_abs a b ltac:(assumption)). lia.
Qed.

Definition lcm (a b : Z) : res Z :=
  bigint_div (a * b) (gcd a b).

(** [L(x) = (x - 1) / n] *)
Definition L (x n : Z) : res Z :=
  bigint_div (x - 1) n.

(** ** Primality by trial division *)

(** The [for (let i = 3n; i * i <= n; i += 2n)] loop of [isPrime]. *)
Equations? isPrime_loop (n i : Z) : res bool by wf (Z.to_nat (n + 2 - i)) lt :=
  isPrime_loop n i with Z_le_dec (i * i) n := {
    | left _ =>
        let* r := bigint_rem n i in
        if r =? 0 then Ret false else isPrime_loop n (i + 2)
    | right _ => Ret true }.
Proof.
  nia.
Qed.

Definition isPrime (n : Z) : res bool :=
  if n <? 2 then Ret false
  else if (n =? 2) || (n =? 3) then Ret true
  else if Z.rem n 2 =? 0 then Ret false
  else isPrime_loop n 3.

(** The [for (let i = min; i <= max; i++)] loop of [findPrimesInRange].
    The JavaScript numbers [min], [max] and [i] are modelled as integers:
    the model is that of the code for integer arguments in the range where
    [i++] is exact, [|i| < 2^53]; [mx] is the [max] of the source. *)
Equations? findPrimesInRange_loop (i mx : Z) (primes : list Z)
  : res (list Z) by wf (Z.to_nat (mx + 1 - i)) lt :=
  findPrimesInRange_loop i mx primes with Z_le_dec i mx := {
    | left _ =>
        let* b := isPrime i in
        findPrimesInRange_loop (i + 1) mx (if b then primes ++ [i] else primes)
    | right _ => Ret primes }.
Proof.
  lia.
Qed.

Definition findPrimesInRange (min max : Z) : res (list Z) :=
  findPrimesInRange_loop min max [].

(** The integers that a JavaScript number holds exactly, up to
    [Number.MAX_SAFE_INTEGER]. *)
Definition safe_integer (x : Z) : Prop := - (2 ^ 53 - 1) <= x <= 2 ^ 53 - 1.

(** ** Keys *)

Record PaillierPublicKey : Type := mkPublicKey {
  pk_n : Z;
  pk_nSquared : Z;
  pk_g : Z
}.

Record PaillierPrivateKey : Type := mkPrivateKey {
  sk_lambda : Z;
  sk_mu : Z;
  sk_n : Z;
  sk_nSquared : Z
}.

Record KeyGenerationSteps : Type := mkKeyGenerationSteps {
  ks_p : Z;
  ks_q : Z;
  ks_n : Z;
  ks_nSquared : Z;
  ks_g : Z;
  ks_pMinus1 : Z;
  ks_qMinus1 : Z;
  ks_lambda : Z;
  ks_gLambda : Z;
  ks_lOfGLambda : Z;
  ks_mu : Z
}.

Record PaillierKeyPair : Type := mkKeyPair {
  publicKey : PaillierPublicKey;
  privateKey : PaillierPrivateKey;
  steps : KeyGenerationSteps
}.

Definition isValidPaillierPair (p q : Z) : res bool :=
  if p =? q then Ret false
  else
    let n := p * q in
    let* lambda := lcm (p - 1) (q - 1) in
    Ret (gcd n lambda =? 1).

Definition generateKeyPair (p q : Z) : res PaillierKeyPair :=
  let n := p * q in
  let nSquared := n * n in
  let g := n + 1 in
  let pMinus1 := p - 1 in
  let qMinus1 := q - 1 in
  let* lambda := lcm pMinus1 qMinus1 in
  if negb (gcd n lambda =? 1) then
    Throw (Error_InvalidPrimePair n lambda (gcd n lambda))
  else
    let* gLambda := modPow g lambda nSquared in
    let* lOfGLambda := L gLambda n in
    let* mu := modInverse lOfGLambda n in
    Ret {| publicKey := {| pk_n := n; pk_nSquared := nSquared; pk_g := g |};
           privateKey := {| sk_lambda := lambda; sk_mu := mu;
                            sk_n := n; sk_nSquared := nSquared |};
           steps := {| ks_p := p; ks_q := q; ks_n := n; ks_nSquared := nSquared;
                       ks_g := g; ks_pMinus1 := pMinus1; ks_qMinus1 := qMinus1;
                       ks_lambda := lambda; ks_gLambda := gLambda;
                       ks_lOfGLambda := lOfGLambda; ks_mu := mu |} |}.

(** ** The random source

    [crypto.getRandomValues] is modelled by a tape of bytes consumed from
    the front; [None] means that the tape holds fewer bytes than the call
    asks for (the real source never runs dry). *)

Definition tape : Type := list byte.

Definition getRandomValues (bytes : positive) (t : tape) : option (list byte * tape) :=
  if (length t <? Pos.to_nat bytes)%nat then None
  else Some (firstn (Pos.to_nat bytes) t, skipn (Pos.to_nat bytes) t).

(** [BigInt('0x' + hex digits of the bytes)]: the bytes read big-endian. *)
Definition bigint_of_bytes (bs : list byte) : Z :=
  fold_left (fun acc b => acc * 256 + Z.of_N (Byte.to_N b)) bs 0.

(** [x.toString(2).length] for a BigInt [x]: the binary digits, and the
    sign of a negative number. *)
Definition toString2_length (x : Z) : Z :=
  match x with
  | Z0 => 1
  | Zpos _ => Z.log2 x + 1
  | Zneg _ => Z.log2 (- x) + 2
  end.

(** The [do ... while (result >= range)] loop of [randomBigInt]. *)
Equations? randomBigInt_loop (range : Z) (bytes : positive) (t : tape)
  : option (Z * tape) by wf (length t) lt :=
  randomBigInt_loop range bytes t with inspect (getRandomValues bytes t) := {
    | exist _ None _ => None
    | exist _ (Some (randomBytes, t')) Hdraw =>
        let result := bigint_of_bytes randomBytes in
        if result >=? range then randomBigInt_loop range bytes t'
        else Some (result, t') }.
Proof.
  unfold getRandomValues in Hdraw.
  destruct (Nat.ltb_spec (length t) (Pos.to_nat bytes)); [discriminate|].
  injection Hdraw as _ <-. rewrite length_skipn. lia.
Qed.

(** [bits >= 1], so [Math.ceil(bits / 8)] is a positive number of bytes. *)
Definition randomBigInt (min max : Z) (t : tape) : option (Z * tape) :=
  let range := max - min + 1 in
  let bits := toString2_length range in
  let bytes := Z.to_pos ((bits + 7) / 8) in
  match randomBigInt_loop range bytes t with
  | None => None
  | Some (result, t') => Some (min + result, t')
  end.

(** Each round of the loop reads at least one byte: the measure that makes
    the sampling loop of [encrypt] below well founded. *)
Lemma randomBigInt_loop_step (range : Z) (bytes : positive) (t : tape) :
  randomBigInt_loop range bytes t =
  match getRandomValues bytes t with
  | None => None
  | Some (randomBytes, t') =>
      if bigint_of_bytes randomBytes >=? range
      then randomBigInt_loop range bytes t'
      else Some (bigint_of_bytes randomBytes, t')
  end.
Proof.
  funelim (randomBigInt_loop range bytes t).
  - rewrite Hdraw. reflexivity.
  - match goal with E : getRandomValues _ _ = None |- _ => rewrite E end.
    reflexivity.
Qed.

Lemma getRandomValues_consumes (bytes : positive) (t t' : tape) (bs : list byte) :
  getRandomValues bytes t = Some (bs, t') ->
  length bs = Pos.to_nat bytes /\ t = bs ++ t' /\ (length t' < length t)%nat.
Proof.
  unfold getRandomValues.
  destruct (Nat.ltb_spec (length t) (Pos.to_nat bytes)) as [|Hle]; [discriminate|].
  intros [= <- <-]. rewrite firstn_skipn, length_firstn, length_skipn.
  repeat split; lia.
Qed.

Lemma randomBigInt_loop_consumes (range : Z) (bytes : positive) (t t' : tape) (v : Z) :
  randomBigInt_loop range bytes t = Some (v, t') -> (length t' < length t)%nat.
Proof.
  remember (length t) as k eqn:Hk. revert t Hk.
  induction k as [k IH] using lt_wf_ind. intros t -> Hrun.
  rewrite randomBigInt_loop_step in Hrun.
  destruct (getRandomValues bytes t) as [[bs t1]|] eqn:Hdraw; [|discriminate].
  apply getRandomValues_consumes in Hdraw as (_ & _ & Hlt).
  destruct (bigint_of_bytes bs >=? range).
  - specialize (IH _ Hlt t1 eq_refl Hrun). lia.
  - injection Hrun as _ <-. exact Hlt.
Qed.

Lemma randomBigInt_consumes (min max : Z) (t t' : tape) (v : Z) :
  randomBigInt min max t = Some (v, t') -> (length t' < length t)%nat.
Proof.
  unfold randomBigInt.
  destruct (randomBigInt_loop _ _ t) as [[r t1]|] eqn:E; [|discriminate].
  intros [= <- <-]. eapply randomBigInt_loop_consumes; eassumption.
Qed.

(** ** Cipher *)

Record EncryptionResult : Type := mkEncryptionResult {
  er_ciphertext : Z;
  er_r : Z
}.

(** The [do { r = randomBigInt(2n, n - 1n) } while (gcd(r, n) !== 1n)] loop
    of [encrypt]. *)
Equations? encrypt_draw (n : Z) (t : tape) : option (Z * tape) by wf (length t) lt :=
  encrypt_draw n t with inspect (randomBigInt 2 (n - 1) t) := {
    | exist _ None _ => None
    | exist _ (Some (r, t')) Hdraw =>
        if negb (gcd r n =? 1) then encrypt_draw n t' else Some (r, t') }.
Proof.
  eapply randomBigInt_consumes; eassumption.
Qed.

Definition encrypt (message : Z) (publicKey : PaillierPublicKey) (t : tape)
  : option (res EncryptionResult * tape) :=
  let n := pk_n publicKey in
  let nSquared := pk_nSquared publicKey in
  let g := pk_g publicKey in
  match encrypt_draw n t with
  | None => None
  | Some (r, t') =>
      Some (let* gm := modPow g message nSquared in
            let* rn := modPow r n nSquared in
            let* ciphertext := bigint_rem (gm * rn) nSquared in
            Ret {| er_ciphertext := ciphertext; er_r := r |},
            t')
  end.

Record DecryptionSteps : Type := mkDecryptionSteps {
  ds_ciphertext : Z;
  ds_lambda : Z;
  ds_nSquared : Z;
  ds_cLambda : Z;
  ds_n : Z;
  ds_lValue : Z;
  ds_mu : Z;
  ds_lTimesMu : Z;
  ds_message : Z
}.

Definition decrypt (ciphertext : Z) (privateKey : PaillierPrivateKey) : res Z :=
  let lambda := sk_lambda privateKey in
  let mu := sk_mu privateKey in
  let n := sk_n privateKey in
  let nSquared := sk_nSquared privateKey in
  let* cLambda := modPow ciphertext lambda nSquared in
  let* lValue := L cLambda n in
  let* message := bigint_rem (lValue * mu) n in
  Ret message.

Definition decryptWithSteps (ciphertext : Z) (privateKey : PaillierPrivateKey)
  : res DecryptionSteps :=
  let lambda := sk_lambda privateKey in
  let mu := sk_mu privateKey in
  let n := sk_n privateKey in
  let nSquared := sk_nSquared privateKey in
  let* cLambda := modPow ciphertext lambda nSquared in
  let* lValue := L cLambda n in
  let lTimesMu := lValue * mu in
  let* message := bigint_rem lTimesMu n in
  Ret {| ds_ciphertext := ciphertext; ds_lambda := lambda;
         ds_nSquared := nSquared; ds_cLambda := cLambda; ds_n := n;
         ds_lValue := lValue; ds_mu := mu; ds_lTimesMu := lTimesMu;
         ds_message := message |}.

(** ** Homomorphic combinators *)

Definition homomorphicAdd (c1 c2 : Z) (publicKey : PaillierPublicKey) : res Z :=
  bigint_rem (c1 * c2) (pk_nSquared publicKey).

Definition homomorphicMultiplyScalar (c scalar : Z) (publicKey : PaillierPublicKey) : res Z :=
  modPow c scalar (pk_nSquared publicKey).

(** The tally of [VoteTally.computeHomomorphicSum]: nothing is computed
    for an empty list; otherwise the first ciphertext is folded with the
    others, left to right, by [homomorphicAdd]. *)
Definition computeHomomorphicSum (ciphertexts : list Z) (publicKey : PaillierPublicKey)
  : option (res Z) :=
  match ciphertexts with
  | [] => None
  | c0 :: rest =>
      Some (fold_left (fun sum c => let* s := sum in homomorphicAdd s c publicKey)
                      rest (Ret c0))
  end.

(** ** The voting booth: [components/voting-panel.tsx]

    The handlers of the component as functions of the [voters] it is given;
    their result is what they pass to [onVotersChange]. *)

Module VotingPanel.
Import String.

(** The type [0 | 1] of a vote, and [BigInt(vote)]. *)
Inductive Vote : Type := Vote_0 | Vote_1.

Definition BigInt (vote : Vote) : Z :=
  match vote with
  | Vote_0 => 0
  | Vote_1 => 1
  end.

Record VoterData : Type := mkVoterData {
  id : Z;
  name : string;
  vote : option Vote;
  encryption : option EncryptionResult
}.



(** [voters.map(...)] calls [encrypt] for every voter with the given id, in
    the order of the list; an exception of [encrypt] leaves the handler. *)
Fixpoint castVote (id0 : Z) (vote0 : Vote) (voters : list VoterData)
         (publicKey : PaillierPublicKey) (t : tape)
  : option (res (list VoterData) * tape) :=
  match voters with
  | [] => Some (Ret [], t)
  | voter :: rest =>
      if id voter =? id0 then
        let message := BigInt vote0 in
        match encrypt message publicKey t with
        | None => None
        | Some (Throw e, t') => Some (Throw e, t')
        | Some (Ret encryption0, t') =>
            match castVote id0 vote0 rest publicKey t' with
            | None => None
            | Some (Throw e, t'') => Some (Throw e, t'')
            | Some (Ret rest', t'') =>
                Some (Ret ({| id := id voter; name := name voter;
                              vote := Some vote0;
                              encryption := Some encryption0 |} :: rest'), t'')
            end
        end
      else
        match castVote id0 vote0 rest publicKey t with
        | None => None
        | Some (Throw e, t') => Some (Throw e, t')
        | Some (Ret rest', t') => Some (Ret (voter :: rest'), t')
        end
  end.

(** [n.toString()] of a BigInt. *)
Definition toString (n : Z) : string :=
  DecimalString.NilZero.string_of_int (Z.to_int n).

(** [str.slice(0, k)] and [str.slice(-k)] for [0 <= k]. *)
Definition slice_first (k : nat) (str : string) : string :=
  substring 0 k str.

Definition slice_last (k : nat) (str : string) : string :=
  substring (length str - k) k str.

Definition formatBigInt (n : Z) : string :=
  let str := toString n in
  if (16 <? length str)%nat then slice_first 8 str ++ "..." ++ slice_last 8 str
  else str.

Definition votedCount (voters : list VoterData) : nat :=
  List.length (filter (fun v => match vote v with Some _ => true | None => false end)
                      voters).

Definition yesCount (voters : list VoterData) : nat :=
  List.length (filter (fun v => match vote v with Some Vote_1 => true | _ => false end)
                      voters).

Definition noCount (voters : list VoterData) : nat :=
  List.length (filter (fun v => match vote v with Some Vote_0 => true | _ => false end)
                      voters).

End VotingPanel.

(** ** The tally: [VoteTally]

    The component keeps four pieces of state; a handler maps the state to
    the state after its [set...] calls, or throws and leaves it alone. *)

Module VoteTally.
Import String.

Record State : Type := mkState {
  showDecryption : bool;
  decryptedSum : option Z;
  encryptedSum : option Z;
  decryptionSteps : option DecryptionSteps
}.

Definition initialState : State :=
  {| showDecryption := false; decryptedSum := None;
     encryptedSum := None; decryptionSteps := None |}.

(** [voters.filter((v) => v.vote !== null && v.encryption)] *)
Definition votedVoters (voters : list VotingPanel.VoterData)
  : list VotingPanel.VoterData :=
  filter (fun v => match VotingPanel.vote v, VotingPanel.encryption v with
                   | Some _, Some _ => true
                   | _, _ => false
                   end) voters.

(** The ciphertexts [v.encryption!.ciphertext] of a list of voters; the
    assertion [!] holds on [votedVoters]. *)
Definition ciphertexts (voters : list VotingPanel.VoterData) : list Z :=
  flat_map (fun v => match VotingPanel.encryption v with
                     | Some e => [er_ciphertext e]
                     | None => []
                     end) voters.

(** The handler [computeHomomorphicSum]; the fold itself is the
    [computeHomomorphicSum] defined above on the list of ciphertexts. *)
Definition computeHomomorphicSum (publicKey : PaillierPublicKey)
           (voters : list VotingPanel.VoterData) (st : State) : res State :=
  match computeHomomorphicSum (ciphertexts (votedVoters voters)) publicKey with
  | None => Ret st
  | Some folded =>
      let* sum := folded in
      Ret {| encryptedSum := Some sum; showDecryption := false;
             decryptedSum := None; decryptionSteps := None |}
  end.

(** [if (!encryptedSum) return;] also returns on the BigInt [0n]. *)
Definition decryptSum (privateKey : PaillierPrivateKey) (st : State) : res State :=
  match encryptedSum st with
  | None => Ret st
  | Some c =>
      if c =? 0 then Ret st
      else
        let* steps := decryptWithSteps c privateKey in
        Ret {| decryptionSteps := Some steps;
               decryptedSum := Some (ds_message steps);
               showDecryption := true;
               encryptedSum := encryptedSum st |}
  end.

Definition actualYesCount (voters : list VotingPanel.VoterData) : nat :=
  List.length (filter (fun v => match VotingPanel.vote v with
                                | Some VotingPanel.Vote_1 => true
                                | _ => false
                                end) voters).

(** [decryptedSum !== null && Number(decryptedSum) === actualYesCount]:
    the count is an array length, which a number holds exactly, so the
    comparison of numbers is the comparison of the integers. *)
Definition isCorrect (voters : list VotingPanel.VoterData) (st : State) : bool :=
  match decryptedSum st with
  | None => false
  | Some d => d =? Z.of_nat (actualYesCount voters)
  end.

Definition formatBigInt (n : Z) : string :=
  let str := VotingPanel.toString n in
  if (24 <? length str)%nat
  then VotingPanel.slice_first 12 str ++ "..." ++ VotingPanel.slice_last 12 str
  else str.

End VoteTally.

(** ** The page: [app/page.tsx] *)

Module Home.

Record State : Type := mkState {
  keyPair : option PaillierKeyPair;
  voters : list VotingPanel.VoterData
}.

Definition initialState : State := {| keyPair := None; voters := [] |}.


End Home.

(** ** Definitions used by the statements and proofs *)

(** The private exponent [lambda = lcm (p-1) (q-1)]. *)
Definition lambda_of (p q : Z) : Z := Z.lcm (p - 1) (q - 1).

(** A ciphertext [c] encodes [k] under [(n, lambda)] when
    [c ^ lambda = 1 + k lambda n] modulo [n^2]: this is all that decryption
    looks at, and the combinators add and scale the encoded value. *)
Definition encodes (n lambda c k : Z) : Prop :=
  0 <= c < n * n /\ c ^ lambda mod (n * n) = (1 + k * lambda * n) mod (n * n).

(** A ballot is in order under [(n, lambda)] when the voter has neither
    voted nor an encryption, or has both, the ciphertext encoding the
    vote. *)
Definition ballot_ok (n lambda : Z) (v : VotingPanel.VoterData) : Prop :=
  match VotingPanel.vote v, VotingPanel.encryption v with
  | None, None => True
  | Some b, Some e => encodes n lambda (er_ciphertext e) (VotingPanel.BigInt b)
  | _, _ => False
  end.

Definition ballots_ok (n lambda : Z) (voters : list VotingPanel.VoterData) : Prop :=
  Forall (ballot_ok n lambda) voters.

(** The votes that enter the tally, in the order of the list. *)
Definition cast_votes (voters : list VotingPanel.VoterData) : list Z :=
  flat_map (fun v => match VotingPanel.vote v, VotingPanel.encryption v with
                     | Some b, Some _ => [VotingPanel.BigInt b]
                     | _, _ => []
                     end) voters.

(** What [castVote] does to one voter. *)
Definition cast_on (id0 : Z) (vote0 : VotingPanel.Vote)
           (old new : VotingPanel.VoterData) : Prop :=
  VotingPanel.id new = VotingPanel.id old
  /\ VotingPanel.name new = VotingPanel.name old
  /\ if VotingPanel.id old =? id0
     then VotingPanel.vote new = Some vote0
          /\ exists e, VotingPanel.encryption new = Some e
     else new = old.

(** The number of bytes that [randomBigInt(min, max)] reads per round. *)
Definition bytes_per_draw (min max : Z) : positive :=
  Z.to_pos ((toString2_length (max - min + 1) + 7) / 8).

(** The residues [1 .. p-1] and the product of a list, for Fermat's little
    theorem. *)
Definition residues (p : Z) : list Z := map Z.of_nat (seq 1 (Z.to_nat (p - 1))).

Definition list_prod (l : list Z) : Z := fold_right Z.mul 1 l.

(** The tape that makes [randomBigInt] draw a given value: its [k]
    big-endian base-256 digits. *)
Definition byte_of_Z (z : Z) : byte :=
  match Byte.of_N (Z.to_N z) with
  | Some b => b
  | None => x00
  end.

Fixpoint bytes_of_bigint (k : nat) (v : Z) : list byte :=
  match k with
  | O => []
  | S k' => bytes_of_bigint k' (v / 256) ++ [byte_of_Z (v mod 256)]
  end.

(** The key pair of the demo, [p = 7] and [q = 11], and what
    [generateKeyPair] returns on [p = q = 3]. *)
Definition pk_7_11 : PaillierPublicKey :=
  {| pk_n := 77; pk_nSquared := 5929; pk_g := 78 |}.

Definition sk_7_11 : PaillierPrivateKey :=
  {| sk_lambda := 30; sk_mu := 18; sk_n := 77; sk_nSquared := 5929 |}.

Definition kp_7_11 : PaillierKeyPair :=
  {| publicKey := pk_7_11;
     privateKey := sk_7_11;
     steps := {| ks_p := 7; ks_q := 11; ks_n := 77; ks_nSquared := 5929;
                 ks_g := 78; ks_pMinus1 := 6; ks_qMinus1 := 10; ks_lambda := 30;
                 ks_gLambda := 2311; ks_lOfGLambda := 30; ks_mu := 18 |} |}.

Definition kp_3_3 : PaillierKeyPair :=
  {| publicKey := {| pk_n := 9; pk_nSquared := 81; pk_g := 10 |};
     privateKey := {| sk_lambda := 2; sk_mu := 5; sk_n := 9; sk_nSquared := 81 |};
     steps := {| ks_p := 3; ks_q := 3; ks_n := 9; ks_nSquared := 81;
                 ks_g := 10; ks_pMinus1 := 2; ks_qMinus1 := 2; ks_lambda := 2;
                 ks_gLambda := 19; ks_lOfGLambda := 2; ks_mu := 5 |} |}.

(** A booth of the demo: a yes vote under [p = 7], [q = 11] with blinding
    factor 3, a no vote with blinding factor 10, and a voter who has not
    voted. *)
Module Demo.
Import String.

Definition voters : list VotingPanel.VoterData :=
  [ {| VotingPanel.id := 1; VotingPanel.name := "Voter 1";
       VotingPanel.vote := Some VotingPanel.Vote_1;
       VotingPanel.encryption := Some {| er_ciphertext := 3001; er_r := 3 |} |};
    {| VotingPanel.id := 2; VotingPanel.name := "Voter 2";
       VotingPanel.vote := Some VotingPanel.Vote_0;
       VotingPanel.encryption := Some {| er_ciphertext := 362; er_r := 10 |} |};
    {| VotingPanel.id := 3; VotingPanel.name := "Voter 3";
       VotingPanel.vote := None;
       VotingPanel.encryption := None |} ].

End Demo.

(** * Properties *)

(** ** BigInt division on a non-zero divisor *)

Lemma bigint_rem_nonzero (a b : Z) : b <> 0 -> bigint_rem a b = Ret (Z.rem a b).
Proof.
  intros Hb. unfold bigint_rem. destruct (Z.eqb_spec b 0); [contradiction|reflexivity].
Qed.

Lemma bigint_div_nonzero (a b : Z) : b <> 0 -> bigint_div a b = Ret (Z.quot a b).
Proof.
  intros Hb. unfold bigint_div. destruct (Z.eqb_spec b 0); [contradiction|reflexivity].
Qed.

Lemma bigint_rem_mod (a b : Z) : 0 <= a -> 0 < b -> bigint_rem a b = Ret (a mod b).
Proof.
  intros Ha Hb. rewrite bigint_rem_nonzero by lia.
  now rewrite Z.rem_mod_nonneg.
Qed.

Lemma bigint_div_div (a b : Z) : 0 <= a -> 0 < b -> bigint_div a b = Ret (a / b).
Proof.
  intros Ha Hb. rewrite bigint_div_nonzero by lia.
  now rewrite Z.quot_div_nonneg.
Qed.

(** ** Euclid's loop *)

Lemma gcd_step (a b : Z) :
  gcd a b = if Z.eq_dec b 0 then a else gcd b (Z.rem a b).
Proof.
  funelim (gcd a b); destruct (Z.eq_dec b 0); try contradiction; reflexivity.
Qed.

Lemma gcd_Zgcd (a b : Z) : 0 <= a -> 0 <= b -> gcd a b = Z.gcd a b.
Proof.
  funelim (gcd a b); intros Ha Hb.
  - subst b. rewrite Z.gcd_0_r, Z.abs_eq; trivial.
  - assert (Hb' : 0 < b) by lia.
    rewrite H; trivial.
    + rewrite Z.rem_mod_nonneg by trivial.
      rewrite (Z.gcd_comm b), Z.gcd_mod by lia. apply Z.gcd_comm.
    + apply Z.rem_nonneg; lia.
Qed.

(** ** Extended Euclid and the modular inverse *)

Lemma extendedGcd_step (a b : Z) :
  extendedGcd a b =
  if Z.eq_dec a 0 then {| eg_gcd := b; eg_x := 0; eg_y := 1 |}
  else let r := extendedGcd (Z.rem b a) a in
       {| eg_gcd := eg_gcd r;
          eg_x := eg_y r - Z.quot b a * eg_x r;
          eg_y := eg_x r |}.
Proof.
  funelim (extendedGcd a b); destruct (Z.eq_dec a 0); try contradiction; reflexivity.
Qed.

Lemma extendedGcd_bezout (a b : Z) :
  a * eg_x (extendedGcd a b) + b * eg_y (extendedGcd a b) = eg_gcd (extendedGcd a b).
Proof.
  funelim (extendedGcd a b); cbn [eg_gcd eg_x eg_y].
  - lia.
  - cbn zeta. cbn [eg_gcd eg_x eg_y].
    rewrite <- H. pose proof (Z.quot_rem' b a) as Hqr. nia.
Qed.

Lemma extendedGcd_gcd (a b : Z) :
  0 <= a -> 0 <= b -> eg_gcd (extendedGcd a b) = Z.gcd a b.
Proof.
  funelim (extendedGcd a b); intros Ha Hb; cbn zeta; cbn [eg_gcd eg_x eg_y].
  - subst a. rewrite Z.gcd_0_l, Z.abs_eq; trivial.
  - assert (Ha' : 0 < a) by lia.
    rewrite H; trivial.
    + rewrite Z.rem_mod_nonneg by trivial. rewrite Z.gcd_mod by lia. reflexivity.
    + apply Z.rem_nonneg; lia.
Qed.

Lemma rem_normalise (x md : Z) : 0 < md -> Z.rem (Z.rem x md + md) md = x mod md.
Proof.
  intros Hmd.
  pose proof (Z.rem_bound_abs x md ltac:(lia)) as Hb.
  rewrite Z.rem_mod_nonneg by lia.
  pose proof (Z.quot_rem' x md) as Hqr.
  replace (Z.rem x md + md) with (x + (1 - Z.quot x md) * md) by lia.
  apply Z.mod_add. lia.
Qed.

Lemma modInverse_coprime (a md : Z) :
  0 <= a -> 1 <= md -> Z.gcd a md = 1 ->
  exists x, modInverse a md = Ret x /\ 0 <= x < md /\ (a * x) mod md = 1 mod md.
Proof.
  intros Ha Hmd Hg. unfold modInverse.
  rewrite bigint_rem_mod by lia. cbn [bind]. cbn zeta.
  pose proof (Z.mod_pos_bound a md ltac:(lia)) as Hr.
  rewrite extendedGcd_gcd by lia.
  rewrite Z.gcd_mod, Z.gcd_comm, Hg by lia. cbn [Z.eqb negb].
  rewrite bigint_rem_nonzero by lia. cbn [bind].
  rewrite bigint_rem_nonzero by lia. rewrite rem_normalise by lia.
  eexists. split; [reflexivity|]. split; [apply Z.mod_pos_bound; lia|].
  pose proof (extendedGcd_bezout (a mod md) md) as Hbz.
  rewrite extendedGcd_gcd, Z.gcd_mod, Z.gcd_comm, Hg in Hbz by lia.
  rewrite Z.mul_mod_idemp_r by lia.
  rewrite <- Z.mul_mod_idemp_l by lia.
  symmetry. rewrite <- Hbz, (Z.mul_comm md). apply Z.mod_add. lia.
Qed.

Lemma modInverse_not_coprime (a md : Z) :
  0 <= a -> 1 <= md -> Z.gcd a md <> 1 ->
  modInverse a md = Throw Error_ModularInverseDoesNotExist.
Proof.
  intros Ha Hmd Hg. unfold modInverse.
  rewrite bigint_rem_mod by lia. cbn [bind]. cbn zeta.
  pose proof (Z.mod_pos_bound a md ltac:(lia)) as Hr.
  rewrite extendedGcd_gcd by lia.
  rewrite Z.gcd_mod, Z.gcd_comm by lia.
  destruct (Z.eqb_spec (Z.gcd a md) 1); [contradiction|reflexivity].
Qed.

(** ** Square-and-multiply *)

Lemma modPow_loop_step (result base exp md : Z) :
  modPow_loop result base exp md =
  if Z_gt_dec exp 0 then
    let* result' :=
      (if Z.rem exp 2 =? 1 then bigint_rem (result * base) md else Ret result) in
    let* base' := bigint_rem (base * base) md in
    modPow_loop result' base' (Z.quot exp 2) md
  else Ret result.
Proof.
  funelim (modPow_loop result base exp md);
    destruct (Z_gt_dec exp 0); try contradiction; reflexivity.
Qed.

(** Without a round of the loop the initial [result] is returned as it is. *)
Lemma modPow_loop_nonpositive (result base exp md : Z) :
  exp <= 0 -> modPow_loop result base exp md = Ret result.
Proof.
  intros He. rewrite modPow_loop_step. destruct (Z_gt_dec exp 0); [lia|reflexivity].
Qed.

Lemma square_pow (base k : Z) : 0 <= k -> (base * base) ^ k = base ^ (2 * k).
Proof.
  intros Hk. replace (base * base) with (base ^ 2) by lia.
  now rewrite Z.pow_mul_r by lia.
Qed.

Lemma modPow_loop_positive (md : Z) (Hmd : 0 < md) (exp : Z) :
  0 <= exp -> forall result base, 0 < exp -> 0 <= result -> 0 <= base ->
  modPow_loop result base exp md = Ret ((result * base ^ exp) mod md).
Proof.
  intros Hnn. pattern exp. apply Z_lt_induction; [|exact Hnn]. clear exp Hnn.
  intros exp IH result base Hexp Hres Hbase.
  rewrite modPow_loop_step. destruct (Z_gt_dec exp 0) as [_|]; [|lia].
  assert (Hq : Z.quot exp 2 = exp / 2) by (apply Z.quot_div_nonneg; lia).
  assert (Hr : Z.rem exp 2 = exp mod 2) by (apply Z.rem_mod_nonneg; lia).
  pose proof (Z.div_mod exp 2 ltac:(lia)) as Hdm.
  pose proof (Z.mod_pos_bound exp 2 ltac:(lia)) as Hmb.
  rewrite Hq, Hr.
  destruct (Z.eqb_spec (exp mod 2) 1) as [Hodd|Heven].
  - rewrite bigint_rem_mod by nia. cbn [bind].
    rewrite bigint_rem_mod by nia. cbn [bind].
    destruct (Z.eq_dec (exp / 2) 0) as [Hz|Hnz].
    + rewrite Hz, modPow_loop_nonpositive by lia.
      do 2 f_equal. replace exp with 1 by lia. lia.
    + rewrite IH; try lia; try (apply Z.mod_pos_bound; lia).
      f_equal. rewrite Z.mul_mod_idemp_l by lia.
      rewrite <- Z.mul_mod_idemp_r, <- Zpower_mod by lia.
      rewrite Z.mul_mod_idemp_r, square_pow by lia. f_equal.
      replace exp with (1 + 2 * (exp / 2)) at 2 by lia.
      rewrite Z.pow_add_r, Z.pow_1_r by lia. lia.
  - cbn [bind]. rewrite bigint_rem_mod by nia. cbn [bind].
    assert (Hnz : 0 < exp / 2) by lia.
    rewrite IH; try lia; try (apply Z.mod_pos_bound; lia).
    f_equal.
    rewrite <- Z.mul_mod_idemp_r, <- Zpower_mod by lia.
    rewrite Z.mul_mod_idemp_r, square_pow by lia. f_equal.
    replace exp with (2 * (exp / 2)) at 2 by lia. reflexivity.
Qed.

(** With a modulus of at least 2 the result is [base ^ exp mod md] for every
    exponent; with modulus 1 the exponent has to be positive. *)
Lemma modPow_positive (base exp md : Z) :
  0 <= base -> 0 < exp -> 0 < md -> modPow base exp md = Ret (base ^ exp mod md).
Proof.
  intros Hb He Hmd. unfold modPow. rewrite bigint_rem_mod by lia. cbn [bind].
  rewrite modPow_loop_positive; try lia; try (apply Z.mod_pos_bound; lia).
  rewrite Z.mul_1_l, <- Zpower_mod by lia. reflexivity.
Qed.

Lemma modPow_spec (base exp md : Z) :
  0 <= base -> 0 <= exp -> 1 < md -> modPow base exp md = Ret (base ^ exp mod md).
Proof.
  intros Hb He Hmd. destruct (Z.eq_dec exp 0) as [->|Hnz].
  - unfold modPow. rewrite bigint_rem_mod by lia. cbn [bind].
    rewrite modPow_loop_nonpositive by lia.
    rewrite Z.pow_0_r, Z.mod_1_l by lia. reflexivity.
  - apply modPow_positive; lia.
Qed.

Lemma modPow_zero_exponent (base md : Z) :
  md <> 0 -> modPow base 0 md = Ret 1.
Proof.
  intros Hmd. unfold modPow. rewrite bigint_rem_nonzero by trivial. cbn [bind].
  apply modPow_loop_nonpositive. lia.
Qed.

Lemma lcm_Zlcm (a b : Z) : 0 < a -> 0 < b -> lcm a b = Ret (Z.lcm a b).
Proof.
  intros Ha Hb. unfold lcm. rewrite gcd_Zgcd by lia.
  assert (Hg : 0 < Z.gcd a b).
  { pose proof (Z.gcd_nonneg a b). pose proof (Z.gcd_eq_0_l a b). lia. }
  rewrite bigint_div_div by nia. f_equal.
  unfold Z.lcm. rewrite Z.lcm_equiv1 by lia.
  symmetry. apply Z.abs_eq. apply Z.div_pos; nia.
Qed.

(** ** Fermat's little theorem

    The residues [1 .. p-1] are permuted by multiplication with a unit
    modulo a prime [p]; comparing the two products gives [a^(p-1) = 1]. *)

Section Fermat.

Variable p : Z.
Hypothesis p_prime : Z.prime p.

Lemma p_ge_2 : 2 <= p.
Proof. apply Z.prime_ge_2, p_prime. Qed.

Lemma In_residues (x : Z) : In x (residues p) <-> 1 <= x < p.
Proof.
  pose proof p_ge_2. unfold residues. rewrite in_map_iff. split.
  - intros (k & <- & Hk). apply in_seq in Hk. lia.
  - intros Hx. exists (Z.to_nat x). split; [lia|]. apply in_seq. lia.
Qed.

Lemma NoDup_residues : NoDup (residues p).
Proof.
  unfold residues. apply NoDup_map_NoDup_ForallPairs; [|apply seq_NoDup].
  intros x y _ _ Hxy. lia.
Qed.

Lemma length_residues : Z.of_nat (length (residues p)) = p - 1.
Proof.
  pose proof p_ge_2. unfold residues. rewrite length_map, length_seq. lia.
Qed.

Lemma list_prod_Permutation (l l' : list Z) :
  Permutation l l' -> list_prod l = list_prod l'.
Proof.
  unfold list_prod.
  induction 1 as [|x l l' _ IH|x y l|l l' l'' _ IH1 _ IH2]; cbn.
  - reflexivity.
  - now rewrite IH.
  - lia.
  - now rewrite IH1.
Qed.

Lemma list_prod_scaled (a : Z) (l : list Z) :
  list_prod (map (fun x => (a * x) mod p) l) mod p
  = (a ^ Z.of_nat (length l) * list_prod l) mod p.
Proof.
  pose proof p_ge_2.
  induction l as [|x l IH]; [reflexivity|].
  change (((a * x) mod p * list_prod (map (fun x => (a * x) mod p) l)) mod p
          = (a ^ Z.of_nat (S (length l)) * (x * list_prod l)) mod p).
  rewrite Z.mul_mod_idemp_l, <- Z.mul_mod_idemp_r, IH, Z.mul_mod_idemp_r by lia.
  f_equal. rewrite Nat2Z.inj_succ, Z.pow_succ_r by lia. lia.
Qed.

Lemma list_prod_coprime (l : list Z) :
  (forall x, In x l -> Z.coprime x p) -> Z.coprime (list_prod l) p.
Proof.
  induction l as [|x l IH]; intros Hl.
  - apply Z.coprime_1_l.
  - change (list_prod (x :: l)) with (x * list_prod l). apply Z.coprime_mul_l.
    + apply Hl. now left.
    + apply IH. intros y Hy. apply Hl. now right.
Qed.

Variable a : Z.
Hypothesis a_unit : ~ (p | a).

Lemma scaled_residue (x : Z) : 1 <= x < p -> 1 <= (a * x) mod p < p.
Proof.
  intros Hx. pose proof p_ge_2.
  pose proof (Z.mod_pos_bound (a * x) p ltac:(lia)) as Hb.
  enough ((a * x) mod p <> 0) by lia.
  intros Hz. apply Z.mod_divide in Hz; [|lia].
  apply Z.divide_prime_mul in Hz; [|exact p_prime].
  destruct Hz as [Hz|Hz]; [contradiction|].
  apply Z.divide_pos_le in Hz; lia.
Qed.

Lemma scaled_residue_inj (x y : Z) :
  1 <= x < p -> 1 <= y < p -> (a * x) mod p = (a * y) mod p -> x = y.
Proof.
  intros Hx Hy Hxy. pose proof p_ge_2.
  assert (Hd : (p | a * (x - y))).
  { apply Z.mod_divide; [lia|].
    rewrite Z.mul_sub_distr_l, Zminus_mod, Hxy, Z.sub_diag. apply Z.mod_0_l. lia. }
  apply Z.divide_prime_mul in Hd; [|exact p_prime].
  destruct Hd as [Hd|[k Hk]]; [contradiction|].
  assert (k = 0) by (destruct (Z.lt_trichotomy k 0) as [|[|]]; nia). lia.
Qed.

Lemma scaled_residues_Permutation :
  Permutation (map (fun x => (a * x) mod p) (residues p)) (residues p).
Proof.
  apply NoDup_Permutation_bis.
  - apply NoDup_map_NoDup_ForallPairs; [|apply NoDup_residues].
    intros x y Hx Hy. apply scaled_residue_inj; now apply In_residues.
  - rewrite length_map. apply Nat.le_refl.
  - intros y Hy. apply in_map_iff in Hy as (x & <- & Hx).
    apply In_residues, scaled_residue. now apply In_residues.
Qed.

Theorem fermat_little : a ^ (p - 1) mod p = 1.
Proof.
  pose proof p_ge_2.
  pose proof (list_prod_scaled a (residues p)) as Hs.
  rewrite (list_prod_Permutation _ _ scaled_residues_Permutation) in Hs.
  rewrite length_residues in Hs.
  assert (Hd : (p | list_prod (residues p) * (a ^ (p - 1) - 1))).
  { apply Z.mod_divide; [lia|].
    rewrite Z.mul_comm, Z.mul_sub_distr_r, Zminus_mod, <- Hs, Z.mul_1_l, Z.sub_diag.
    apply Z.mod_0_l. lia. }
  apply Z.gauss in Hd.
  - destruct Hd as [k Hk].
    replace (a ^ (p - 1)) with (1 + k * p) by lia.
    rewrite Z.mod_add, Z.mod_1_l by lia. reflexivity.
  - rewrite Z.gcd_comm. apply list_prod_coprime.
    intros x Hx. unfold Z.coprime. rewrite Z.gcd_comm.
    apply Z.coprime_prime_small; [exact p_prime|].
    now apply In_residues.
Qed.

End Fermat.

(** ** The algebra behind decryption *)

Lemma coprime_divide_mul (a b c : Z) :
  Z.coprime a b -> (a | c) -> (b | c) -> (a * b | c).
Proof.
  intros Hab [k ->] Hb. rewrite Z.mul_comm in Hb.
  apply Z.gauss in Hb; [|now rewrite Z.gcd_comm].
  destruct Hb as [j ->]. exists j. lia.
Qed.

Lemma mod_one_divide (x m : Z) : 1 < m -> x mod m = 1 -> (m | x - 1).
Proof.
  intros Hm Hx. apply Z.mod_divide; [lia|].
  rewrite Zminus_mod, Hx, Z.mod_1_l, Z.sub_diag by lia. apply Z.mod_0_l. lia.
Qed.

Lemma divide_mod_one (x m : Z) : 1 < m -> (m | x - 1) -> x mod m = 1.
Proof.
  intros Hm [k Hk]. replace x with (1 + k * m) by lia.
  rewrite Z.mod_add, Z.mod_1_l by lia. reflexivity.
Qed.

Lemma pow_mod_one (x m k : Z) : 1 < m -> 0 <= k -> x mod m = 1 -> (x ^ k) mod m = 1.
Proof.
  intros Hm Hk Hx. rewrite Zpower_mod, Hx, Z.pow_1_l, Z.mod_1_l by lia. reflexivity.
Qed.

(** [(1 + t n)^e = 1 + e t n] modulo [n^2]. *)
Lemma one_plus_pow (n t e : Z) :
  n <> 0 -> 0 <= e -> (1 + t * n) ^ e mod (n * n) = (1 + e * t * n) mod (n * n).
Proof.
  intros Hn He. pattern e. apply natlike_ind; [reflexivity| |exact He].
  clear e He. intros e He IH.
  rewrite Z.pow_succ_r by trivial.
  rewrite <- Z.mul_mod_idemp_r, IH, Z.mul_mod_idemp_r by nia.
  replace ((1 + t * n) * (1 + e * t * n))
    with (1 + Z.succ e * t * n + (e * t * t) * (n * n)) by lia.
  apply Z.mod_add. nia.
Qed.

Lemma one_plus_mod (n k : Z) :
  1 < n -> (1 + k * n) mod (n * n) = 1 + (k mod n) * n.
Proof.
  intros Hn. pose proof (Z.mod_pos_bound k n ltac:(lia)) as Hb.
  pose proof (Z.div_mod k n ltac:(lia)) as Hdm.
  replace (1 + k * n) with (1 + (k mod n) * n + (k / n) * (n * n)) by nia.
  rewrite Z.mod_add by nia. apply Z.mod_small. nia.
Qed.

(** A unit modulo [n], raised to a multiple of the exponent of the group
    and then to the [n]-th power, is 1 modulo [n^2]. *)
Lemma pow_lift (n x : Z) : 1 < n -> x mod n = 1 -> x ^ n mod (n * n) = 1.
Proof.
  intros Hn Hx. apply mod_one_divide in Hx as [t Ht]; [|lia].
  replace x with (1 + t * n) by lia.
  rewrite one_plus_pow by lia.
  replace (1 + n * t * n) with (1 + t * (n * n)) by lia.
  rewrite Z.mod_add, Z.mod_1_l by nia. reflexivity.
Qed.

Section Carmichael.

Variables p q : Z.
Hypothesis p_prime : Z.prime p.
Hypothesis q_prime : Z.prime q.
Hypothesis p_neq_q : p <> q.

Let n := p * q.
Let lambda := Z.lcm (p - 1) (q - 1).

Lemma primes_ge_2 : 2 <= p /\ 2 <= q.
Proof. split; now apply Z.prime_ge_2. Qed.

Lemma lambda_pos : 0 < lambda.
Proof.
  destruct primes_ge_2. subst lambda.
  pose proof (Z.lcm_nonneg (p - 1) (q - 1)).
  pose proof (Z.lcm_eq_0 (p - 1) (q - 1)). lia.
Qed.

Lemma primes_coprime : Z.coprime p q.
Proof.
  apply Z.coprime_prime_l; [exact p_prime|].
  intros Hd. apply p_neq_q. now apply Z.divide_prime_prime.
Qed.

Lemma pow_multiple_fermat (s r k : Z) :
  Z.prime s -> ~ (s | r) -> (s - 1 | k) -> 0 <= k -> r ^ k mod s = 1.
Proof.
  intros Hs Hr [j Hj] Hk. pose proof (Z.prime_ge_2 s Hs).
  assert (0 <= j) by nia.
  rewrite Hj, Z.mul_comm, Z.pow_mul_r by lia.
  apply pow_mod_one; try lia. now apply fermat_little.
Qed.

(** The exponent [lcm(p-1, q-1)] kills every unit modulo [n = p q]. *)
Lemma carmichael (r : Z) : Z.gcd r n = 1 -> r ^ lambda mod n = 1.
Proof.
  intros Hr. destruct primes_ge_2 as [Hp Hq]. pose proof lambda_pos as Hl.
  assert (Hnp : ~ (p | r)).
  { intros Hd. assert (H1 : (p | 1)).
    { rewrite <- Hr. apply Z.gcd_greatest; [exact Hd|]. exists q. subst n; lia. }
    apply Z.divide_1_r_nonneg in H1; lia. }
  assert (Hnq : ~ (q | r)).
  { intros Hd. assert (H1 : (q | 1)).
    { rewrite <- Hr. apply Z.gcd_greatest; [exact Hd|]. exists p. subst n; lia. }
    apply Z.divide_1_r_nonneg in H1; lia. }
  apply divide_mod_one; [subst n; nia|].
  apply coprime_divide_mul; [exact primes_coprime| |].
  - apply mod_one_divide; [lia|].
    apply pow_multiple_fermat; trivial; [apply Z.divide_lcm_l|lia].
  - apply mod_one_divide; [lia|].
    apply pow_multiple_fermat; trivial; [apply Z.divide_lcm_r|lia].
Qed.

Lemma blinding_vanishes (r : Z) :
  Z.gcd r n = 1 -> (r ^ n) ^ lambda mod (n * n) = 1.
Proof.
  intros Hr. destruct primes_ge_2 as [Hp Hq]. pose proof lambda_pos as Hl.
  assert (Hn : 1 < n) by (subst n; nia).
  rewrite <- Z.pow_mul_r, Z.mul_comm, Z.pow_mul_r by lia.
  apply pow_lift; [exact Hn|]. now apply carmichael.
Qed.

End Carmichael.

(** ** Key generation *)

Lemma g_pow_lambda (n l : Z) :
  1 < n -> 0 <= l -> (n + 1) ^ l mod (n * n) = 1 + (l mod n) * n.
Proof.
  intros Hn Hl. replace (n + 1) with (1 + 1 * n) by lia.
  rewrite one_plus_pow by lia. rewrite Z.mul_1_r. now apply one_plus_mod.
Qed.

Lemma L_one_plus (n k : Z) : 1 < n -> 0 <= k -> L (1 + k * n) n = Ret k.
Proof.
  intros Hn Hk. unfold L. rewrite bigint_div_div by nia.
  f_equal. replace (1 + k * n - 1) with (k * n) by lia. apply Z.div_mul. lia.
Qed.

Lemma generateKeyPair_valid (p q : Z) :
  2 <= p -> 2 <= q -> Z.gcd (p * q) (lambda_of p q) = 1 ->
  exists kp,
    generateKeyPair p q = Ret kp
    /\ publicKey kp = {| pk_n := p * q; pk_nSquared := p * q * (p * q); pk_g := p * q + 1 |}
    /\ sk_lambda (privateKey kp) = lambda_of p q
    /\ sk_n (privateKey kp) = p * q
    /\ sk_nSquared (privateKey kp) = p * q * (p * q)
    /\ 0 <= sk_mu (privateKey kp) < p * q
    /\ (lambda_of p q * sk_mu (privateKey kp)) mod (p * q) = 1.
Proof.
  intros Hp Hq Hg. unfold lambda_of in *.
  assert (Hl : 0 <= Z.lcm (p - 1) (q - 1)) by apply Z.lcm_nonneg.
  assert (Hn : 1 < p * q) by nia.
  pose proof (Z.mod_pos_bound (Z.lcm (p - 1) (q - 1)) (p * q) ltac:(lia)) as Hlm.
  destruct (modInverse_coprime (Z.lcm (p - 1) (q - 1) mod (p * q)) (p * q))
    as (mu & Hmu & Hrange & Hinv); try lia.
  { now rewrite Z.gcd_mod by lia. }
  unfold generateKeyPair. cbn zeta.
  rewrite lcm_Zlcm by lia. cbn [bind].
  rewrite gcd_Zgcd, Hg by lia. cbn [Z.eqb negb].
  rewrite modPow_spec by nia. cbn [bind].
  rewrite g_pow_lambda by lia.
  rewrite L_one_plus by lia. cbn [bind].
  rewrite Hmu. cbn [bind].
  eexists. split; [reflexivity|]. cbn.
  repeat split; try lia.
  rewrite Z.mul_mod_idemp_l, Z.mod_1_l in Hinv by lia. exact Hinv.
Qed.

Lemma generateKeyPair_invalid (p q : Z) :
  2 <= p -> 2 <= q -> Z.gcd (p * q) (lambda_of p q) <> 1 ->
  generateKeyPair p q =
  Throw (Error_InvalidPrimePair (p * q) (lambda_of p q)
           (Z.gcd (p * q) (lambda_of p q))).
Proof.
  intros Hp Hq Hg. unfold lambda_of in *.
  assert (Hl : 0 <= Z.lcm (p - 1) (q - 1)) by apply Z.lcm_nonneg.
  unfold generateKeyPair. cbn zeta.
  rewrite lcm_Zlcm by lia. cbn [bind].
  rewrite gcd_Zgcd by nia.
  destruct (Z.eqb_spec (Z.gcd (p * q) (Z.lcm (p - 1) (q - 1))) 1); [contradiction|].
  reflexivity.
Qed.

(** What a successful call has established. *)
Lemma generateKeyPair_inv (p q : Z) (kp : PaillierKeyPair) :
  2 <= p -> 2 <= q -> generateKeyPair p q = Ret kp ->
  Z.gcd (p * q) (lambda_of p q) = 1
  /\ publicKey kp = {| pk_n := p * q; pk_nSquared := p * q * (p * q); pk_g := p * q + 1 |}
  /\ sk_lambda (privateKey kp) = lambda_of p q
  /\ sk_n (privateKey kp) = p * q
  /\ sk_nSquared (privateKey kp) = p * q * (p * q)
  /\ 0 <= sk_mu (privateKey kp) < p * q
  /\ (lambda_of p q * sk_mu (privateKey kp)) mod (p * q) = 1.
Proof.
  intros Hp Hq Hrun.
  destruct (Z.eq_dec (Z.gcd (p * q) (lambda_of p q)) 1) as [Hg|Hg].
  - split; [exact Hg|].
    destruct (generateKeyPair_valid p q Hp Hq Hg) as (kp' & Hrun' & Hkp).
    rewrite Hrun in Hrun'. injection Hrun' as <-. exact Hkp.
  - rewrite generateKeyPair_invalid in Hrun by trivial. discriminate.
Qed.

(** ** The sampling loops *)

Lemma bigint_of_bytes_nonneg (bs : list byte) : 0 <= bigint_of_bytes bs.
Proof.
  unfold bigint_of_bytes.
  enough (H : forall acc, 0 <= acc ->
            0 <= fold_left (fun acc b => acc * 256 + Z.of_N (Byte.to_N b)) bs acc)
    by (apply H; lia).
  induction bs as [|b bs IH]; intros acc Hacc; cbn [fold_left]; [exact Hacc|].
  apply IH. lia.
Qed.

Lemma randomBigInt_loop_range (range : Z) (bytes : positive) (t t' : tape) (v : Z) :
  randomBigInt_loop range bytes t = Some (v, t') -> 0 <= v < range.
Proof.
  remember (length t) as k eqn:Hk. revert t Hk.
  induction k as [k IH] using lt_wf_ind. intros t -> Hrun.
  rewrite randomBigInt_loop_step in Hrun.
  destruct (getRandomValues bytes t) as [[bs t1]|] eqn:Hdraw; [|discriminate].
  apply getRandomValues_consumes in Hdraw as (_ & _ & Hlt).
  destruct (Z.geb_spec (bigint_of_bytes bs) range) as [Hge|Hlt'].
  - exact (IH _ Hlt t1 eq_refl Hrun).
  - injection Hrun as <- _. pose proof (bigint_of_bytes_nonneg bs). lia.
Qed.

Lemma randomBigInt_range (min max : Z) (t t' : tape) (v : Z) :
  randomBigInt min max t = Some (v, t') -> min <= v <= max.
Proof.
  unfold randomBigInt.
  destruct (randomBigInt_loop _ _ t) as [[r t1]|] eqn:E; [|discriminate].
  intros [= <- <-]. apply randomBigInt_loop_range in E. lia.
Qed.

Lemma encrypt_draw_step (n : Z) (t : tape) :
  encrypt_draw n t =
  match randomBigInt 2 (n - 1) t with
  | None => None
  | Some (r, t') => if negb (gcd r n =? 1) then encrypt_draw n t' else Some (r, t')
  end.
Proof.
  funelim (encrypt_draw n t).
  - rewrite Hdraw. reflexivity.
  - match goal with E : randomBigInt _ _ _ = None |- _ => rewrite E end.
    reflexivity.
Qed.

(** The blinding factor that leaves the loop lies in [[2, n-1]] and is
    coprime to [n]. *)
Lemma encrypt_draw_spec (n : Z) (t t' : tape) (r : Z) :
  encrypt_draw n t = Some (r, t') -> 2 <= r <= n - 1 /\ Z.gcd r n = 1.
Proof.
  remember (length t) as k eqn:Hk. revert t Hk.
  induction k as [k IH] using lt_wf_ind. intros t -> Hrun.
  rewrite encrypt_draw_step in Hrun.
  destruct (randomBigInt 2 (n - 1) t) as [[r1 t1]|] eqn:Hdraw; [|discriminate].
  pose proof (randomBigInt_consumes _ _ _ _ _ Hdraw) as Hlt.
  apply randomBigInt_range in Hdraw.
  destruct (Z.eqb_spec (gcd r1 n) 1) as [Hg|Hg]; cbn [negb] in Hrun.
  - injection Hrun as <- _. split; [exact Hdraw|].
    rewrite <- gcd_Zgcd by lia. exact Hg.
  - exact (IH _ Hlt t1 eq_refl Hrun).
Qed.

(** Every value in range is drawn on some tape: the tape that holds its
    big-endian digits. *)

Lemma byte_of_Z_value (z : Z) : 0 <= z < 256 -> Z.of_N (Byte.to_N (byte_of_Z z)) = z.
Proof.
  intros Hz. unfold byte_of_Z. destruct (Byte.of_N (Z.to_N z)) as [b|] eqn:E.
  - apply Byte.to_of_N in E. rewrite E. lia.
  - apply Byte.of_N_None_iff in E. lia.
Qed.

Lemma length_bytes_of_bigint (k : nat) (v : Z) : length (bytes_of_bigint k v) = k.
Proof.
  revert v. induction k as [|k IH]; intros v; [reflexivity|].
  cbn [bytes_of_bigint]. rewrite length_app, IH. cbn. lia.
Qed.

Lemma bigint_of_bytes_snoc (bs : list byte) (b : byte) :
  bigint_of_bytes (bs ++ [b]) = bigint_of_bytes bs * 256 + Z.of_N (Byte.to_N b).
Proof. unfold bigint_of_bytes. now rewrite fold_left_app. Qed.

Lemma bigint_of_bytes_of_bigint (k : nat) (v : Z) :
  0 <= v < 256 ^ Z.of_nat k -> bigint_of_bytes (bytes_of_bigint k v) = v.
Proof.
  revert v. induction k as [|k IH]; intros v Hv.
  - cbn in Hv. cbn. lia.
  - cbn [bytes_of_bigint]. rewrite bigint_of_bytes_snoc.
    rewrite Nat2Z.inj_succ, Z.pow_succ_r in Hv by lia.
    rewrite IH, byte_of_Z_value.
    + pose proof (Z.div_mod v 256 ltac:(lia)). lia.
    + apply Z.mod_pos_bound. lia.
    + split; [apply Z.div_pos; lia|apply Z.div_lt_upper_bound; lia].
Qed.

(** The bytes read in one round are enough to hold the whole range. *)
Lemma range_fits_bytes (range : Z) :
  0 < range ->
  range <= 256 ^ Z.pos (Z.to_pos ((toString2_length range + 7) / 8)).
Proof.
  intros Hr. destruct range as [|r|r]; try lia. cbn [toString2_length].
  pose proof (Z.log2_spec (Z.pos r) ltac:(lia)) as [_ Hlt].
  pose proof (Z.log2_nonneg (Z.pos r)) as Hl.
  set (bits := Z.log2 (Z.pos r) + 1) in *.
  replace (Z.succ (Z.log2 (Z.pos r))) with bits in Hlt by (subst bits; lia).
  assert (Hb : 1 <= (bits + 7) / 8) by (apply Z.div_le_lower_bound; lia).
  rewrite Z2Pos.id by lia.
  change 256 with (2 ^ 8). rewrite <- Z.pow_mul_r by lia.
  pose proof (Z.mul_div_le (bits + 7) 8 ltac:(lia)).
  pose proof (Z.mod_pos_bound (bits + 7) 8 ltac:(lia)).
  pose proof (Z.div_mod (bits + 7) 8 ltac:(lia)).
  assert (Hle : 2 ^ bits <= 2 ^ (8 * ((bits + 7) / 8))) by (apply Z.pow_le_mono_r; lia).
  lia.
Qed.

Lemma randomBigInt_complete (min max v : Z) :
  min <= v <= max -> exists t, randomBigInt min max t = Some (v, []).
Proof.
  intros Hv. unfold randomBigInt.
  set (range := max - min + 1). set (bytes := Z.to_pos _).
  exists (bytes_of_bigint (Pos.to_nat bytes) (v - min)).
  rewrite randomBigInt_loop_step. unfold getRandomValues.
  rewrite length_bytes_of_bigint, Nat.ltb_irrefl.
  rewrite !firstn_all2, !skipn_all2 by (rewrite length_bytes_of_bigint; lia).
  rewrite bigint_of_bytes_of_bigint.
  - destruct (Z.geb_spec (v - min) range); [subst range; lia|].
    do 2 f_equal. lia.
  - rewrite positive_nat_Z.
    pose proof (range_fits_bytes range ltac:(subst range; lia)).
    subst range bytes. lia.
Qed.

Lemma encrypt_draw_complete (n r : Z) :
  2 <= r <= n - 1 -> Z.gcd r n = 1 -> exists t, encrypt_draw n t = Some (r, []).
Proof.
  intros Hr Hg. destruct (randomBigInt_complete 2 (n - 1) r Hr) as [t Ht].
  exists t. rewrite encrypt_draw_step, Ht, gcd_Zgcd, Hg by lia. reflexivity.
Qed.

(** ** Ciphertexts as encodings *)

Section Encoding.

Variables n lambda : Z.
Hypothesis n_gt_1 : 1 < n.
Hypothesis lambda_nonneg : 0 <= lambda.

Lemma decrypt_encoded (sk : PaillierPrivateKey) (c k : Z) :
  sk_lambda sk = lambda -> sk_n sk = n -> sk_nSquared sk = n * n ->
  0 <= sk_mu sk -> (lambda * sk_mu sk) mod n = 1 ->
  encodes n lambda c k -> decrypt c sk = Ret (k mod n).
Proof.
  intros Hl Hn Hnn Hmu Hinv [Hc Henc]. unfold decrypt. rewrite Hl, Hn, Hnn.
  rewrite modPow_spec by nia. cbn [bind].
  rewrite Henc, one_plus_mod by lia.
  pose proof (Z.mod_pos_bound (k * lambda) n ltac:(lia)) as Hb.
  rewrite L_one_plus by lia. cbn [bind].
  rewrite bigint_rem_mod by nia. cbn [bind]. f_equal.
  rewrite Z.mul_mod_idemp_l by lia.
  replace (k * lambda * sk_mu sk) with (k * (lambda * sk_mu sk)) by lia.
  rewrite <- Z.mul_mod_idemp_r, Hinv, Z.mul_1_r by lia. reflexivity.
Qed.

Lemma homomorphicAdd_encodes (pk : PaillierPublicKey) (c1 c2 k1 k2 : Z) :
  pk_nSquared pk = n * n -> encodes n lambda c1 k1 -> encodes n lambda c2 k2 ->
  exists c, homomorphicAdd c1 c2 pk = Ret c /\ encodes n lambda c (k1 + k2).
Proof.
  intros Hnn [Hc1 He1] [Hc2 He2]. unfold homomorphicAdd. rewrite Hnn.
  rewrite bigint_rem_mod by nia.
  eexists. split; [reflexivity|]. split; [apply Z.mod_pos_bound; nia|].
  rewrite <- Zpower_mod, Z.pow_mul_l by nia.
  rewrite Z.mul_mod, He1, He2, <- Z.mul_mod by nia.
  replace ((1 + k1 * lambda * n) * (1 + k2 * lambda * n))
    with (1 + (k1 + k2) * lambda * n + (k1 * lambda * k2 * lambda) * (n * n)) by lia.
  apply Z.mod_add. nia.
Qed.

Lemma homomorphicMultiplyScalar_encodes (pk : PaillierPublicKey) (c k scalar : Z) :
  pk_nSquared pk = n * n -> 0 <= scalar -> encodes n lambda c k ->
  exists c', homomorphicMultiplyScalar c scalar pk = Ret c' /\ encodes n lambda c' (scalar * k).
Proof.
  intros Hnn Hs [Hc He]. unfold homomorphicMultiplyScalar. rewrite Hnn.
  rewrite modPow_spec by nia.
  eexists. split; [reflexivity|]. split; [apply Z.mod_pos_bound; nia|].
  rewrite <- Zpower_mod by nia.
  rewrite <- Z.pow_mul_r, Z.mul_comm, Z.pow_mul_r by lia.
  rewrite Zpower_mod, He, <- Zpower_mod by nia.
  rewrite one_plus_pow by lia. f_equal. lia.
Qed.

End Encoding.

Section Paillier.

Variables p q : Z.
Hypothesis p_prime : Z.prime p.
Hypothesis q_prime : Z.prime q.
Hypothesis p_neq_q : p <> q.

(** Every result of [encrypt] under the generated public key encodes the
    message, whichever blinding factor the loop drew. *)
Lemma encrypt_encodes (pk : PaillierPublicKey) (m : Z) (t t' : tape)
      (x : res EncryptionResult) :
  pk = {| pk_n := p * q; pk_nSquared := p * q * (p * q); pk_g := p * q + 1 |} ->
  0 <= m ->
  encrypt m pk t = Some (x, t') ->
  exists er, x = Ret er
    /\ (2 <= er_r er <= p * q - 1 /\ Z.gcd (er_r er) (p * q) = 1)
    /\ encodes (p * q) (lambda_of p q) (er_ciphertext er) m.
Proof.
  intros -> Hm Hrun. unfold encrypt in Hrun. cbn [pk_n pk_nSquared pk_g] in Hrun.
  destruct (encrypt_draw (p * q) t) as [[r t1]|] eqn:Hdraw; [|discriminate].
  injection Hrun as <- <-.
  apply encrypt_draw_spec in Hdraw as [Hr Hg].
  destruct (primes_ge_2 p q p_prime q_prime) as [Hp Hq].
  pose proof (lambda_pos p q p_prime q_prime) as Hl.
  pose proof (blinding_vanishes p q p_prime q_prime p_neq_q r Hg) as Hbv.
  unfold encodes, lambda_of.
  set (n := p * q) in *. set (lambda := Z.lcm (p - 1) (q - 1)) in *.
  assert (Hn : 1 < n) by (subst n; nia).
  rewrite !modPow_spec by nia. cbn [bind].
  assert (Hgm : 0 <= (n + 1) ^ m mod (n * n) < n * n) by (apply Z.mod_pos_bound; nia).
  assert (Hrn : 0 <= r ^ n mod (n * n) < n * n) by (apply Z.mod_pos_bound; nia).
  rewrite bigint_rem_mod by nia. cbn [bind].
  eexists. split; [reflexivity|]. cbn [er_r er_ciphertext].
  split; [split; assumption|].
  split; [apply Z.mod_pos_bound; nia|].
  rewrite <- Z.mul_mod by nia.
  rewrite <- Zpower_mod, Z.pow_mul_l by nia.
  rewrite Z.mul_mod, Hbv by nia.
  rewrite Z.mul_1_r, Z.mod_mod by nia.
  rewrite <- Z.pow_mul_r by lia.
  replace (n + 1) with (1 + 1 * n) by lia.
  rewrite one_plus_pow by nia. f_equal. lia.
Qed.

End Paillier.

(** ** The demo key pair of the specification: p = 7, q = 11 *)

Ltac split_range k lo :=
  first [ lia
        | destruct (Z.eq_dec k lo) as [->|];
          [lia | let lo' := eval compute in (lo + 1) in split_range k lo'] ].

Ltac prime_by_cases :=
  split; [lia|];
  let k := fresh "k" in let Hk := fresh "Hk" in let j := fresh "j" in
  intros k Hk [j ?]; split_range k 2.

Lemma prime_7 : Z.prime 7.
Proof. prime_by_cases. Qed.

Lemma prime_11 : Z.prime 11.
Proof. prime_by_cases. Qed.

Example generateKeyPair_7_11 : generateKeyPair 7 11 = Ret kp_7_11.
Proof. vm_compute. reflexivity. Qed.

(** The first byte gives r = 7, which shares a factor with 77 and is
    drawn again; the second byte gives r = 3. *)
Example encrypt_7_11 :
  encrypt 1 pk_7_11 [x05; x01; x07]
  = Some (Ret {| er_ciphertext := 3001; er_r := 3 |}, [x07]).
Proof. vm_compute. reflexivity. Qed.

Example decrypt_7_11 : decrypt 3001 sk_7_11 = Ret 1.
Proof. vm_compute. reflexivity. Qed.

(** * The claims *)

(** The blinding factor that leaves the loop is the one [encrypt] returns. *)
Lemma encrypt_blinding (pk : PaillierPublicKey) (m r : Z) (t t' : tape) :
  encrypt_draw (pk_n pk) t = Some (r, t') ->
  exists x, encrypt m pk t = Some (x, t') /\ forall er, x = Ret er -> er_r er = r.
Proof.
  intros Hdraw. unfold encrypt. rewrite Hdraw.
  eexists. split; [reflexivity|]. intros er.
  destruct (modPow (pk_g pk) m (pk_nSquared pk)); cbn [bind]; [|discriminate].
  destruct (modPow r (pk_n pk) (pk_nSquared pk)); cbn [bind]; [|discriminate].
  destruct (bigint_rem _ _); cbn [bind]; [|discriminate].
  intros [= <-]. reflexivity.
Qed.

(** C1 (round trip).  For primes [p <> q] with
    [gcd (p q) (lcm (p-1) (q-1)) = 1], the key pair returned by
    [generateKeyPair p q] and every message [0 <= m < n]: every run of
    [encrypt] that returns (on whatever random bytes) does not throw, has
    a blinding factor in [[2, n-1]] coprime to [n], and [decrypt] gives
    back [m]; and every such blinding factor is drawn by some run. *)
Theorem decrypt_encrypt_roundtrip (p q m : Z) (kp : PaillierKeyPair) :
  Z.prime p -> Z.prime q -> p <> q ->
  Z.gcd (p * q) (Z.lcm (p - 1) (q - 1)) = 1 ->
  generateKeyPair p q = Ret kp ->
  0 <= m < p * q ->
  (forall t t' x,
     encrypt m (publicKey kp) t = Some (x, t') ->
     exists er,
       x = Ret er
       /\ (2 <= er_r er <= p * q - 1 /\ Z.gcd (er_r er) (p * q) = 1)
       /\ decrypt (er_ciphertext er) (privateKey kp) = Ret m)
  /\ (forall r,
       2 <= r <= p * q - 1 -> Z.gcd r (p * q) = 1 ->
       exists t er,
         encrypt m (publicKey kp) t = Some (Ret er, [])
         /\ er_r er = r
         /\ decrypt (er_ciphertext er) (privateKey kp) = Ret m).
Proof.
  intros Hp Hq Hpq _ Hkp Hm.
  destruct (primes_ge_2 p q Hp Hq) as [Hp2 Hq2].
  apply generateKeyPair_inv in Hkp as (_ & Hpk & Hl & Hn & Hnn & Hmu & Hinv); trivial.
  assert (Hruns : forall t t' x,
            encrypt m (publicKey kp) t = Some (x, t') ->
            exists er,
              x = Ret er
              /\ (2 <= er_r er <= p * q - 1 /\ Z.gcd (er_r er) (p * q) = 1)
              /\ decrypt (er_ciphertext er) (privateKey kp) = Ret m).
  { intros t t' x Henc.
    destruct (encrypt_encodes p q Hp Hq Hpq _ m t t' x Hpk (proj1 Hm) Henc)
      as (er & -> & Hr & Hcode).
    exists er. split; [reflexivity|]. split; [exact Hr|].
    rewrite (decrypt_encoded (p * q) (lambda_of p q)) with (k := m); trivial; try nia.
    - now rewrite Z.mod_small.
    - apply Z.lcm_nonneg. }
  split; [exact Hruns|].
  intros r Hr Hg.
  destruct (encrypt_draw_complete (p * q) r Hr Hg) as [t Hdraw].
  destruct (encrypt_blinding (publicKey kp) m r t []) as (x & Henc & Hx).
  { rewrite Hpk. exact Hdraw. }
  destruct (Hruns t [] x Henc) as (er & -> & _ & Hdec).
  exists t, er. repeat split; trivial. now apply Hx.
Qed.

Lemma decrypt_encrypt_roundtrip_witness :
  (forall t t' x,
     encrypt 1 (publicKey kp_7_11) t = Some (x, t') ->
     exists er,
       x = Ret er
       /\ (2 <= er_r er <= 7 * 11 - 1 /\ Z.gcd (er_r er) (7 * 11) = 1)
       /\ decrypt (er_ciphertext er) (privateKey kp_7_11) = Ret 1)
  /\ (forall r,
       2 <= r <= 7 * 11 - 1 -> Z.gcd r (7 * 11) = 1 ->
       exists t er,
         encrypt 1 (publicKey kp_7_11) t = Some (Ret er, [])
         /\ er_r er = r
         /\ decrypt (er_ciphertext er) (privateKey kp_7_11) = Ret 1).
Proof.
  apply (decrypt_encrypt_roundtrip 7 11 1 kp_7_11).
  - exact prime_7.
  - exact prime_11.
  - lia.
  - reflexivity.
  - vm_compute. reflexivity.
  - lia.
Defined.

(** C2 (additive homomorphism).  Under a key pair returned by
    [generateKeyPair p q], for [m1, m2] in [[0, n)] with [m1 + m2 < n] and
    any two runs of [encrypt] that return: [homomorphicAdd] of the two
    ciphertexts returns a ciphertext that [decrypt] maps to [m1 + m2]. *)
Theorem homomorphicAdd_decrypts_to_sum
        (p q m1 m2 : Z) (kp : PaillierKeyPair) (t1 t1' t2 t2' : tape)
        (x1 x2 : res EncryptionResult) :
  Z.prime p -> Z.prime q -> p <> q ->
  generateKeyPair p q = Ret kp ->
  0 <= m1 < p * q -> 0 <= m2 < p * q -> m1 + m2 < p * q ->
  encrypt m1 (publicKey kp) t1 = Some (x1, t1') ->
  encrypt m2 (publicKey kp) t2 = Some (x2, t2') ->
  exists er1 er2 c,
    x1 = Ret er1 /\ x2 = Ret er2
    /\ homomorphicAdd (er_ciphertext er1) (er_ciphertext er2) (publicKey kp) = Ret c
    /\ decrypt c (privateKey kp) = Ret (m1 + m2).
Proof.
  intros Hp Hq Hpq Hkp Hm1 Hm2 Hsum Henc1 Henc2.
  destruct (primes_ge_2 p q Hp Hq) as [Hp2 Hq2].
  assert (Hn1 : 1 < p * q) by nia.
  assert (Hlam : 0 <= lambda_of p q) by apply Z.lcm_nonneg.
  apply generateKeyPair_inv in Hkp as (_ & Hpk & Hl & Hn & Hnn & Hmu & Hinv); trivial.
  destruct (encrypt_encodes p q Hp Hq Hpq _ m1 t1 t1' x1 Hpk (proj1 Hm1) Henc1)
    as (er1 & -> & _ & Hcode1).
  destruct (encrypt_encodes p q Hp Hq Hpq _ m2 t2 t2' x2 Hpk (proj1 Hm2) Henc2)
    as (er2 & -> & _ & Hcode2).
  destruct (homomorphicAdd_encodes (p * q) (lambda_of p q) Hn1 Hlam (publicKey kp)
              (er_ciphertext er1) (er_ciphertext er2) m1 m2)
    as (c & Hadd & Hcode); trivial.
  { rewrite Hpk. reflexivity. }
  exists er1, er2, c. repeat split; trivial.
  rewrite (decrypt_encoded (p * q) (lambda_of p q)) with (k := m1 + m2); trivial.
  - rewrite Z.mod_small by lia. reflexivity.
  - lia.
Qed.

(** Two voters of the tally: a yes (1) and a no (0). *)
Lemma homomorphicAdd_decrypts_to_sum_witness :
  exists er1 er2 c,
    Ret {| er_ciphertext := 3001; er_r := 3 |} = Ret er1
    /\ Ret {| er_ciphertext := 5163; er_r := 9 |} = Ret er2
    /\ homomorphicAdd (er_ciphertext er1) (er_ciphertext er2) (publicKey kp_7_11) = Ret c
    /\ decrypt c (privateKey kp_7_11) = Ret (1 + 0).
Proof.
  apply (homomorphicAdd_decrypts_to_sum 7 11 1 0 kp_7_11
           [x05; x01; x07] [x07] [x07] []).
  - exact prime_7.
  - exact prime_11.
  - lia.
  - vm_compute. reflexivity.
  - lia.
  - lia.
  - lia.
  - vm_compute. reflexivity.
  - vm_compute. reflexivity.
Defined.

(** The tally: the fold of ciphertexts that encode [k1, ..., kj] encodes
    their sum, so [decryptWithSteps] of the aggregate shows the number of
    yes votes as long as it stays below [n]. *)
Lemma fold_encodes (n lambda : Z) (pk : PaillierPublicKey) (cs ks : list Z) :
  1 < n -> 0 <= lambda -> pk_nSquared pk = n * n ->
  Forall2 (encodes n lambda) cs ks ->
  forall c0 k0, encodes n lambda c0 k0 ->
  exists c,
    fold_left (fun sum c => let* s := sum in homomorphicAdd s c pk) cs (Ret c0) = Ret c
    /\ encodes n lambda c (k0 + fold_right Z.add 0 ks).
Proof.
  intros Hn Hl Hnn Hall.
  induction Hall as [|c k cs ks Hck _ IH]; intros c0 k0 H0.
  - exists c0. split; [reflexivity|]. cbn. now rewrite Z.add_0_r.
  - cbn [fold_left fold_right bind].
    destruct (homomorphicAdd_encodes n lambda Hn Hl pk c0 c k0 k Hnn H0 Hck)
      as (c1 & -> & H1).
    destruct (IH c1 (k0 + k) H1) as (c' & Hfold & Hc').
    exists c'. split; [exact Hfold|]. now rewrite Z.add_assoc.
Qed.

(** The scenario of the demo: votes 1, 1 and 0 under [p = 7], [q = 11]
    (blinding factors 3, 9 and 10) are tallied to 2. *)
Example tally_7_11 :
  encrypt 1 pk_7_11 [x05; x01] = Some (Ret {| er_ciphertext := 3001; er_r := 3 |}, [])
  /\ encrypt 1 pk_7_11 [x07] = Some (Ret {| er_ciphertext := 5471; er_r := 9 |}, [])
  /\ encrypt 0 pk_7_11 [x08] = Some (Ret {| er_ciphertext := 362; er_r := 10 |}, [])
  /\ computeHomomorphicSum [3001; 5471; 362] pk_7_11 = Some (Ret 1955)
  /\ res_map ds_message (decryptWithSteps 1955 sk_7_11) = Ret 2.
Proof. vm_compute. repeat split. Qed.

(** Equal primes pass the check of [generateKeyPair]: [lcm (p-1) (p-1)] is
    [p - 1], which is coprime to [p^2]. *)
Lemma equal_primes_pass_gcd_check (p : Z) :
  2 <= p -> Z.gcd (p * p) (lambda_of p p) = 1.
Proof.
  intros Hp. unfold lambda_of. rewrite Z.lcm_diag, Z.abs_eq by lia.
  assert (Hc : Z.coprime p (p - 1)).
  { apply Z.bezout_1_gcd. exists 1, (-1). lia. }
  apply Z.coprime_mul_l; exact Hc.
Qed.

Lemma generateKeyPair_equal_primes (p : Z) :
  Z.prime p -> exists kp, generateKeyPair p p = Ret kp.
Proof.
  intros Hp. pose proof (Z.prime_ge_2 p Hp) as Hp2.
  destruct (generateKeyPair_valid p p Hp2 Hp2 (equal_primes_pass_gcd_check p Hp2))
    as (kp & Hkp & _).
  exists kp. exact Hkp.
Qed.

Lemma isValidPaillierPair_equal (p : Z) : isValidPaillierPair p p = Ret false.
Proof. unfold isValidPaillierPair. now rewrite Z.eqb_refl. Qed.

(** C3 (equal primes), evaluated on the code at [p = q = 3]:
    [isValidPaillierPair] rejects the pair, but [generateKeyPair] returns a
    key pair instead of throwing, and that key pair does not decrypt what
    it encrypts (message 1 with blinding factor 2 comes back as 7). *)
Theorem generateKeyPair_accepts_equal_primes :
  isValidPaillierPair 3 3 = Ret false
  /\ generateKeyPair 3 3 = Ret kp_3_3
  /\ encrypt 1 (publicKey kp_3_3) [x00]
     = Some (Ret {| er_ciphertext := 17; er_r := 2 |}, [])
  /\ decrypt 17 (privateKey kp_3_3) = Ret 7.
Proof. vm_compute. repeat split. Qed.

(** C4 (the multiplier mu).  On primes [p], [q] for which
    [generateKeyPair] returns, the private key holds
    [lambda = lcm (p-1) (q-1)] and [mu] is the inverse of [lambda] modulo
    [n = p q]: it lies in [[0, n)], [lambda mu = 1 (mod n)], and it is the
    only such residue. *)
Theorem mu_is_inverse_of_lambda (p q : Z) (kp : PaillierKeyPair) :
  Z.prime p -> Z.prime q ->
  generateKeyPair p q = Ret kp ->
  sk_lambda (privateKey kp) = Z.lcm (p - 1) (q - 1)
  /\ sk_n (privateKey kp) = p * q
  /\ 0 <= sk_mu (privateKey kp) < p * q
  /\ (Z.lcm (p - 1) (q - 1) * sk_mu (privateKey kp)) mod (p * q) = 1
  /\ (forall x, 0 <= x < p * q ->
        (Z.lcm (p - 1) (q - 1) * x) mod (p * q) = 1 -> x = sk_mu (privateKey kp)).
Proof.
  intros Hp Hq Hkp.
  destruct (primes_ge_2 p q Hp Hq) as [Hp2 Hq2].
  apply generateKeyPair_inv in Hkp as (Hg & _ & Hl & Hn & _ & Hmu & Hinv); trivial.
  unfold lambda_of in *.
  repeat split; trivial; try lia.
  intros x Hx Hinvx.
  set (l := Z.lcm (p - 1) (q - 1)) in *. set (mu := sk_mu (privateKey kp)) in *.
  assert (Hd : (p * q | l * (x - mu))).
  { apply Z.mod_divide; [nia|].
    rewrite Z.mul_sub_distr_l, Zminus_mod, Hinvx, Hinv, Z.sub_diag.
    apply Z.mod_0_l. nia. }
  apply Z.gauss in Hd; [|exact Hg].
  destruct Hd as [k Hk].
  assert (k = 0) by (destruct (Z.lt_trichotomy k 0) as [|[|]]; nia). lia.
Qed.

Lemma mu_is_inverse_of_lambda_witness :
  sk_lambda (privateKey kp_7_11) = Z.lcm (7 - 1) (11 - 1)
  /\ sk_n (privateKey kp_7_11) = 7 * 11
  /\ 0 <= sk_mu (privateKey kp_7_11) < 7 * 11
  /\ (Z.lcm (7 - 1) (11 - 1) * sk_mu (privateKey kp_7_11)) mod (7 * 11) = 1
  /\ (forall x, 0 <= x < 7 * 11 ->
        (Z.lcm (7 - 1) (11 - 1) * x) mod (7 * 11) = 1 -> x = sk_mu (privateKey kp_7_11)).
Proof.
  apply (mu_is_inverse_of_lambda 7 11 kp_7_11).
  - exact prime_7.
  - exact prime_11.
  - vm_compute. reflexivity.
Defined.

(** C5 (trace agreement).  [decrypt] and the message field of
    [decryptWithSteps] are the same result on every ciphertext and every
    private key: the same message, or the same exception. *)
Theorem decrypt_agrees_with_decryptWithSteps (c : Z) (sk : PaillierPrivateKey) :
  decrypt c sk = res_map ds_message (decryptWithSteps c sk).
Proof.
  unfold decrypt, decryptWithSteps, res_map.
  destruct (modPow c (sk_lambda sk) (sk_nSquared sk)) as [cLambda|e]; [|reflexivity].
  cbn [bind]. destruct (L cLambda (sk_n sk)) as [lValue|e]; [|reflexivity].
  cbn [bind]. destruct (bigint_rem (lValue * sk_mu sk) (sk_n sk)); reflexivity.
Qed.

(** Both return a message when neither modulus of the key is zero. *)
Lemma modPow_loop_total (md : Z) (Hmd : md <> 0) (exp : Z) :
  forall result base, exists v, modPow_loop result base exp md = Ret v.
Proof.
  destruct (Z.le_gt_cases exp 0) as [Hle|Hgt].
  { intros result base. exists result. now apply modPow_loop_nonpositive. }
  assert (Hnn : 0 <= exp) by lia. clear Hgt.
  pattern exp. apply Z_lt_induction; [|exact Hnn]. clear exp Hnn.
  intros exp IH result base. rewrite modPow_loop_step.
  destruct (Z_gt_dec exp 0) as [Hpos|]; [|now exists result].
  rewrite (bigint_rem_nonzero (base * base)) by trivial.
  assert (Hq : 0 <= Z.quot exp 2 < exp).
  { split; [apply Z.quot_pos; lia|apply Z.quot_lt; lia]. }
  destruct (Z.rem exp 2 =? 1).
  - rewrite bigint_rem_nonzero by trivial. cbn [bind]. now apply IH.
  - cbn [bind]. now apply IH.
Qed.

Lemma decrypt_total (c : Z) (sk : PaillierPrivateKey) :
  sk_n sk <> 0 -> sk_nSquared sk <> 0 -> exists m, decrypt c sk = Ret m.
Proof.
  intros Hn Hnn. unfold decrypt, modPow.
  rewrite bigint_rem_nonzero by trivial. cbn [bind].
  destruct (modPow_loop_total _ Hnn (sk_lambda sk) 1 (Z.rem c (sk_nSquared sk)))
    as [v ->].
  cbn [bind]. unfold L. rewrite bigint_div_nonzero by trivial. cbn [bind].
  rewrite bigint_rem_nonzero by trivial. cbn [bind]. eexists. reflexivity.
Qed.

(** C6 (zero exponent), evaluated on the code at modulus 1: the loop is
    not entered and the initial [result = 1n] is returned, whereas
    [1 mod 1 = 0]. *)
Theorem modPow_zero_exponent_modulus_one (base : Z) :
  modPow base 0 1 = Ret 1 /\ 1 mod 1 = 0 /\ base ^ 0 mod 1 = 0.
Proof.
  split; [apply modPow_zero_exponent; lia|]. split; reflexivity.
Qed.

(** For every modulus from 2 on the claim of C6 holds. *)
Lemma modPow_zero_exponent_from_2 (base md : Z) :
  2 <= md -> modPow base 0 md = Ret (1 mod md).
Proof.
  intros Hmd. rewrite modPow_zero_exponent, Z.mod_1_l by lia. reflexivity.
Qed.

(** C7 (modular inverse).  For [a >= 0] and [md >= 1], [modInverse a md]
    throws "Modular inverse does not exist" exactly when [gcd a md <> 1];
    when the gcd is 1 it returns [x] in [[0, md)] with
    [a x = 1 (mod md)]. *)
Theorem modInverse_throws_iff_not_coprime (a md : Z) :
  0 <= a -> 1 <= md ->
  (modInverse a md = Throw Error_ModularInverseDoesNotExist <-> Z.gcd a md <> 1)
  /\ (Z.gcd a md = 1 ->
      exists x, modInverse a md = Ret x /\ 0 <= x < md /\ (a * x) mod md = 1 mod md).
Proof.
  intros Ha Hmd. split; [split|].
  - intros Hthrow Hg.
    destruct (modInverse_coprime a md Ha Hmd Hg) as (x & Hx & _).
    rewrite Hx in Hthrow. discriminate.
  - now apply modInverse_not_coprime.
  - now apply modInverse_coprime.
Qed.

Lemma modInverse_throws_iff_not_coprime_witness :
  (modInverse 30 77 = Throw Error_ModularInverseDoesNotExist <-> Z.gcd 30 77 <> 1)
  /\ (Z.gcd 30 77 = 1 ->
      exists x, modInverse 30 77 = Ret x /\ 0 <= x < 77 /\ (30 * x) mod 77 = 1 mod 77).
Proof.
  apply (modInverse_throws_iff_not_coprime 30 77); lia.
Defined.

Example modInverse_30_77 : modInverse 30 77 = Ret 18.
Proof. vm_compute. reflexivity. Qed.

Example modInverse_6_9 : modInverse 6 9 = Throw Error_ModularInverseDoesNotExist.
Proof. vm_compute. reflexivity. Qed.

(** ** Ranges of the results *)

Lemma modPow_range (base exp md : Z) :
  0 <= base -> 0 < md -> 2 <= md \/ 1 <= exp ->
  exists v, modPow base exp md = Ret v /\ 0 <= v < md.
Proof.
  intros Hb Hmd Hor. destruct (Z.le_gt_cases exp 0) as [Hle|Hgt].
  - exists 1. split; [|lia]. unfold modPow.
    rewrite bigint_rem_nonzero by lia. cbn [bind].
    apply modPow_loop_nonpositive. exact Hle.
  - exists (base ^ exp mod md). split; [apply modPow_positive; lia|].
    apply Z.mod_pos_bound. lia.
Qed.

(** C8 fails as stated: with [n = 1] the scalar 0 gives 1, outside
    [[0, 1)]; a negative input ciphertext, or a negative [g], gives a
    negative result, because BigInt [%] takes the sign of the dividend. *)
Lemma ciphertext_range_counterexample :
  (homomorphicMultiplyScalar 0 0 {| pk_n := 1; pk_nSquared := 1; pk_g := 2 |} = Ret 1
   /\ ~ (0 <= 1 < 1))
  /\ (homomorphicAdd (-1) 1 pk_7_11 = Ret (-1) /\ ~ (0 <= -1 < 5929))
  /\ (encrypt 1 {| pk_n := 3; pk_nSquared := 9; pk_g := -1 |} [x00]
       = Some (Ret {| er_ciphertext := -8; er_r := 2 |}, [])
      /\ ~ (0 <= -8 < 9)).
Proof.
  repeat split; try (vm_compute; reflexivity); lia.
Qed.

(** C8, amended.  For a public key with [nSquared = n^2 >= 1]:
    [encrypt] with [g >= 0] (any message, any blinding factor drawn)
    returns a ciphertext in [[0, n^2)]; so does [homomorphicAdd] on
    non-negative ciphertexts, and [homomorphicMultiplyScalar] on a
    non-negative ciphertext and a scalar [>= 0] when [n^2 >= 2] or the
    scalar is at least 1. *)
Theorem ciphertext_range (pk : PaillierPublicKey) :
  pk_nSquared pk = pk_n pk * pk_n pk -> 1 <= pk_nSquared pk ->
  (forall m t t' x, 0 <= pk_g pk -> encrypt m pk t = Some (x, t') ->
     exists er, x = Ret er /\ 0 <= er_ciphertext er < pk_nSquared pk)
  /\ (forall c1 c2, 0 <= c1 -> 0 <= c2 ->
     exists c, homomorphicAdd c1 c2 pk = Ret c /\ 0 <= c < pk_nSquared pk)
  /\ (forall c scalar, 0 <= c -> 0 <= scalar -> 2 <= pk_nSquared pk \/ 1 <= scalar ->
     exists c', homomorphicMultiplyScalar c scalar pk = Ret c'
                /\ 0 <= c' < pk_nSquared pk).
Proof.
  intros Hnn HN. split; [|split].
  - intros m t t' x Hg Hrun. unfold encrypt in Hrun.
    destruct (encrypt_draw (pk_n pk) t) as [[r t1]|] eqn:Hdraw; [|discriminate].
    injection Hrun as <- <-.
    apply encrypt_draw_spec in Hdraw as [Hr _].
    destruct (modPow_range (pk_g pk) m (pk_nSquared pk)) as (gm & -> & Hgm); try nia.
    destruct (modPow_range r (pk_n pk) (pk_nSquared pk)) as (rn & -> & Hrn); try nia.
    cbn [bind]. rewrite bigint_rem_mod by nia. cbn [bind].
    eexists. split; [reflexivity|]. cbn [er_ciphertext].
    apply Z.mod_pos_bound. lia.
  - intros c1 c2 Hc1 Hc2. unfold homomorphicAdd.
    rewrite bigint_rem_mod by nia.
    eexists. split; [reflexivity|]. apply Z.mod_pos_bound. lia.
  - intros c scalar Hc Hs Hor. unfold homomorphicMultiplyScalar.
    apply modPow_range; lia.
Qed.

Lemma ciphertext_range_witness :
  (forall m t t' x, 0 <= pk_g pk_7_11 -> encrypt m pk_7_11 t = Some (x, t') ->
     exists er, x = Ret er /\ 0 <= er_ciphertext er < pk_nSquared pk_7_11)
  /\ (forall c1 c2, 0 <= c1 -> 0 <= c2 ->
     exists c, homomorphicAdd c1 c2 pk_7_11 = Ret c /\ 0 <= c < pk_nSquared pk_7_11)
  /\ (forall c scalar, 0 <= c -> 0 <= scalar -> 2 <= pk_nSquared pk_7_11 \/ 1 <= scalar ->
     exists c', homomorphicMultiplyScalar c scalar pk_7_11 = Ret c'
                /\ 0 <= c' < pk_nSquared pk_7_11).
Proof.
  apply (ciphertext_range pk_7_11).
  - reflexivity.
  - cbn. lia.
Defined.

(** ** The fold of the tally *)

Lemma homomorphicAdd_comm (c1 c2 : Z) (pk : PaillierPublicKey) :
  homomorphicAdd c1 c2 pk = homomorphicAdd c2 c1 pk.
Proof. unfold homomorphicAdd. now rewrite Z.mul_comm. Qed.

Lemma homomorphicAdd_assoc (c1 c2 c3 : Z) (pk : PaillierPublicKey) :
  (let* s := homomorphicAdd c1 c2 pk in homomorphicAdd s c3 pk)
  = (let* s := homomorphicAdd c2 c3 pk in homomorphicAdd c1 s pk).
Proof.
  unfold homomorphicAdd, bigint_rem.
  destruct (Z.eqb_spec (pk_nSquared pk) 0) as [|HN]; [reflexivity|].
  cbn [bind]. destruct (Z.eqb_spec (pk_nSquared pk) 0); [contradiction|].
  f_equal. rewrite Z.mul_rem_idemp_l, Z.mul_rem_idemp_r by trivial.
  f_equal. lia.
Qed.

Lemma fold_homomorphicAdd (pk : PaillierPublicKey) (rest : list Z) :
  pk_nSquared pk <> 0 -> forall c0,
  fold_left (fun sum c => let* s := sum in homomorphicAdd s c pk) rest (Ret c0)
  = Ret (match rest with
         | [] => c0
         | _ :: _ => Z.rem (c0 * list_prod rest) (pk_nSquared pk)
         end).
Proof.
  intros HN. induction rest as [|c rest IH]; intros c0; [reflexivity|].
  cbn [fold_left bind]. unfold homomorphicAdd at 2.
  rewrite bigint_rem_nonzero by trivial. rewrite IH. f_equal.
  change (list_prod (c :: rest)) with (c * list_prod rest).
  destruct rest as [|c' rest].
  - cbn. f_equal. lia.
  - rewrite Z.mul_rem_idemp_l by trivial. f_equal. lia.
Qed.

Lemma computeHomomorphicSum_Permutation (pk : PaillierPublicKey) (l l' : list Z) :
  pk_nSquared pk <> 0 -> Permutation l l' ->
  (2 <= length l)%nat ->
  computeHomomorphicSum l pk = Some (Ret (Z.rem (list_prod l) (pk_nSquared pk)))
  /\ computeHomomorphicSum l' pk = computeHomomorphicSum l pk.
Proof.
  intros HN Hperm Hlen.
  assert (Hsum : forall k, (2 <= length k)%nat ->
            computeHomomorphicSum k pk
            = Some (Ret (Z.rem (list_prod k) (pk_nSquared pk)))).
  { intros [|a [|b k]] Hk; cbn [length] in Hk; try lia.
    unfold computeHomomorphicSum. now rewrite fold_homomorphicAdd. }
  split; [now apply Hsum|].
  rewrite !Hsum; trivial.
  - now rewrite (list_prod_Permutation _ _ Hperm).
  - now rewrite <- (Permutation_length Hperm).
Qed.

(** C9 (fold order).  Under a public key with [nSquared >= 1],
    [homomorphicAdd] is commutative and associative, and the tally of
    [[c1; c2; c3]] returns one ciphertext, the same for each of the
    permutations of the list. *)
Theorem fold_order_independence (pk : PaillierPublicKey) (c1 c2 c3 : Z) :
  1 <= pk_nSquared pk ->
  (forall a b, homomorphicAdd a b pk = homomorphicAdd b a pk)
  /\ (forall a b c,
        (let* s := homomorphicAdd a b pk in homomorphicAdd s c pk)
        = (let* s := homomorphicAdd b c pk in homomorphicAdd a s pk))
  /\ exists aggregate,
       forall l, Permutation [c1; c2; c3] l ->
                 computeHomomorphicSum l pk = Some (Ret aggregate).
Proof.
  intros HN. split; [|split].
  - intros a b. apply homomorphicAdd_comm.
  - intros a b c. apply homomorphicAdd_assoc.
  - exists (Z.rem (list_prod [c1; c2; c3]) (pk_nSquared pk)).
    intros l Hperm.
    destruct (computeHomomorphicSum_Permutation pk [c1; c2; c3] l) as [H3 Hl];
      trivial; try lia.
    + cbn. lia.
    + now rewrite Hl.
Qed.

Lemma fold_order_independence_witness :
  (forall a b, homomorphicAdd a b pk_7_11 = homomorphicAdd b a pk_7_11)
  /\ (forall a b c,
        (let* s := homomorphicAdd a b pk_7_11 in homomorphicAdd s c pk_7_11)
        = (let* s := homomorphicAdd b c pk_7_11 in homomorphicAdd a s pk_7_11))
  /\ exists aggregate,
       forall l, Permutation [3001; 5163; 1234] l ->
                 computeHomomorphicSum l pk_7_11 = Some (Ret aggregate).
Proof.
  apply (fold_order_independence pk_7_11 3001 5163 1234). cbn. lia.
Defined.

Example computeHomomorphicSum_orders :
  computeHomomorphicSum [3001; 5163; 1234] pk_7_11 = Some (Ret 5374)
  /\ computeHomomorphicSum [1234; 3001; 5163] pk_7_11 = Some (Ret 5374)
  /\ computeHomomorphicSum [5163; 1234; 3001] pk_7_11 = Some (Ret 5374).
Proof. vm_compute. repeat split. Qed.

(** C10 (only [nSquared] is read).  Two public keys with the same
    [nSquared] give the same results in [homomorphicAdd] and
    [homomorphicMultiplyScalar], whatever their [n] and [g]; neither
    combinator checks its ciphertexts against the key. *)
Theorem combinators_read_only_nSquared (k1 k2 : PaillierPublicKey) :
  pk_nSquared k1 = pk_nSquared k2 ->
  (forall c1 c2, homomorphicAdd c1 c2 k1 = homomorphicAdd c1 c2 k2)
  /\ (forall c scalar,
        homomorphicMultiplyScalar c scalar k1 = homomorphicMultiplyScalar c scalar k2).
Proof.
  intros Heq. unfold homomorphicAdd, homomorphicMultiplyScalar. rewrite Heq.
  split; reflexivity.
Qed.

Lemma combinators_read_only_nSquared_witness :
  (forall c1 c2,
     homomorphicAdd c1 c2 pk_7_11
     = homomorphicAdd c1 c2 {| pk_n := -77; pk_nSquared := 5929; pk_g := 5 |})
  /\ (forall c scalar,
        homomorphicMultiplyScalar c scalar pk_7_11
        = homomorphicMultiplyScalar c scalar
            {| pk_n := -77; pk_nSquared := 5929; pk_g := 5 |}).
Proof.
  apply (combinators_read_only_nSquared pk_7_11
           {| pk_n := -77; pk_nSquared := 5929; pk_g := 5 |}).
  reflexivity.
Defined.

(** * Further properties of the code *)

(** ** [modPow] on all integers *)

Lemma rem_pow_idemp (b k m : Z) :
  m <> 0 -> 0 <= k -> Z.rem (Z.rem b m ^ k) m = Z.rem (b ^ k) m.
Proof.
  intros Hm Hk. pattern k. apply natlike_ind; [reflexivity| |exact Hk].
  clear k Hk. intros k Hk IH.
  rewrite !Z.pow_succ_r by trivial.
  rewrite Z.mul_rem_idemp_l by trivial.
  rewrite <- Z.mul_rem_idemp_r, IH, Z.mul_rem_idemp_r by trivial.
  reflexivity.
Qed.

Lemma modPow_loop_rem (md : Z) (Hmd : md <> 0) (exp : Z) :
  0 <= exp -> forall result base, 0 < exp ->
  modPow_loop result base exp md = Ret (Z.rem (result * base ^ exp) md).
Proof.
  intros Hnn. pattern exp. apply Z_lt_induction; [|exact Hnn]. clear exp Hnn.
  intros exp IH result base Hexp.
  rewrite modPow_loop_step. destruct (Z_gt_dec exp 0) as [_|]; [|lia].
  assert (Hq : Z.quot exp 2 = exp / 2) by (apply Z.quot_div_nonneg; lia).
  assert (Hr : Z.rem exp 2 = exp mod 2) by (apply Z.rem_mod_nonneg; lia).
  pose proof (Z.div_mod exp 2 ltac:(lia)) as Hdm.
  pose proof (Z.mod_pos_bound exp 2 ltac:(lia)) as Hmb.
  rewrite Hq, Hr, !bigint_rem_nonzero by trivial.
  assert (Hsq : forall x, 0 < exp / 2 ->
            Z.rem (x * Z.rem (base * base) md ^ (exp / 2)) md
            = Z.rem (x * base ^ (2 * (exp / 2))) md).
  { intros x Hh.
    rewrite <- Z.mul_rem_idemp_r, rem_pow_idemp, Z.mul_rem_idemp_r by lia.
    now rewrite square_pow by lia. }
  destruct (Z.eqb_spec (exp mod 2) 1) as [Hodd|Heven]; cbn [bind].
  - destruct (Z.eq_dec (exp / 2) 0) as [Hz|Hnz].
    + rewrite Hz, modPow_loop_nonpositive by lia.
      do 2 f_equal. replace exp with 1 by lia. lia.
    + rewrite IH by lia. f_equal.
      rewrite Z.mul_rem_idemp_l, Hsq by lia. f_equal.
      replace exp with (1 + 2 * (exp / 2)) at 2 by lia.
      rewrite Z.pow_add_r, Z.pow_1_r by lia. lia.
  - rewrite IH by lia. f_equal. rewrite Hsq by lia. f_equal.
    replace exp with (2 * (exp / 2)) at 2 by lia. reflexivity.
Qed.

(** X1.  For every base (also a negative one), every exponent [>= 1] and
    every non-zero modulus, [modPow] returns the truncated remainder of
    [base ^ exp]: the value of BigInt [base ** exp % mod], which is negative
    when [base ^ exp] is. *)
Theorem modPow_truncated_power (base exp md : Z) :
  md <> 0 -> 1 <= exp -> modPow base exp md = Ret (Z.rem (base ^ exp) md).
Proof.
  intros Hmd He. unfold modPow. rewrite bigint_rem_nonzero by trivial. cbn [bind].
  rewrite modPow_loop_rem by lia.
  rewrite Z.mul_1_l, rem_pow_idemp by lia. reflexivity.
Qed.

Lemma modPow_truncated_power_witness :
  modPow (-2) 3 5 = Ret (Z.rem ((-2) ^ 3) 5).
Proof. apply modPow_truncated_power; lia. Defined.

(** X2.  [modPow] throws exactly when the modulus is 0 (the [RangeError]
    of [base % mod]); an exponent [<= 0] never enters the loop, so the
    result is 1 whatever the base: a negative exponent is not an inverse. *)
Theorem modPow_throws_iff_zero_modulus (base exp md : Z) :
  (modPow base exp md = Throw RangeError_DivisionByZero <-> md = 0)
  /\ (md <> 0 -> exists v, modPow base exp md = Ret v)
  /\ (md <> 0 -> exp <= 0 -> modPow base exp md = Ret 1).
Proof.
  assert (Hret : md <> 0 -> exists v, modPow base exp md = Ret v).
  { intros Hmd. unfold modPow. rewrite bigint_rem_nonzero by trivial. cbn [bind].
    apply modPow_loop_total. exact Hmd. }
  split; [split|split].
  - intros Hthrow. destruct (Z.eq_dec md 0) as [|Hmd]; [assumption|].
    destruct (Hret Hmd) as [v Hv]. rewrite Hv in Hthrow. discriminate.
  - intros ->. reflexivity.
  - exact Hret.
  - intros Hmd He. unfold modPow. rewrite bigint_rem_nonzero by trivial. cbn [bind].
    now apply modPow_loop_nonpositive.
Qed.

(** ** Euclid's loop on all integers *)

Lemma Zgcd_rem (a b : Z) : Z.gcd b (Z.rem a b) = Z.gcd a b.
Proof.
  pose proof (Z.quot_rem' a b) as Hqr.
  replace (Z.rem a b) with (a + (- Z.quot a b) * b) by lia.
  rewrite Z.gcd_add_mult_diag_r. apply Z.gcd_comm.
Qed.

Lemma gcd_abs (a b : Z) : Z.abs (gcd a b) = Z.gcd a b.
Proof.
  funelim (gcd a b).
  - subst b. now rewrite Z.gcd_0_r.
  - rewrite H. apply Zgcd_rem.
Qed.

(** X3.  [gcd] returns the greatest common divisor up to sign on all
    integers, the gcd itself on non-negative arguments, and [a] itself
    when [b] is 0. *)
Theorem gcd_is_gcd_up_to_sign (a b : Z) :
  Z.abs (gcd a b) = Z.gcd a b
  /\ (0 <= a -> 0 <= b -> gcd a b = Z.gcd a b)
  /\ gcd a 0 = a.
Proof.
  split; [apply gcd_abs|]. split; [apply gcd_Zgcd|].
  rewrite gcd_step. reflexivity.
Qed.

Example gcd_negative : gcd 4 (-6) = -2 /\ gcd (-4) 6 = 2.
Proof. vm_compute. split; reflexivity. Qed.

Lemma gcd_zero_iff (a b : Z) : gcd a b = 0 <-> a = 0 /\ b = 0.
Proof.
  pose proof (gcd_abs a b) as Habs. split.
  - intros Hz. rewrite Hz in Habs. cbn in Habs. symmetry in Habs.
    split; [exact (Z.gcd_eq_0_l _ _ Habs)|exact (Z.gcd_eq_0_r _ _ Habs)].
  - intros [-> ->]. rewrite gcd_step. reflexivity.
Qed.

(** X4.  [lcm] throws (the [RangeError] of the division by [gcd(a, b)])
    exactly when both arguments are 0; otherwise it returns the least
    common multiple up to sign, and the least common multiple itself on
    positive arguments. *)
Theorem lcm_throws_iff_both_zero (a b : Z) :
  (lcm a b = Throw RangeError_DivisionByZero <-> a = 0 /\ b = 0)
  /\ (~ (a = 0 /\ b = 0) -> exists v, lcm a b = Ret v /\ Z.abs v = Z.lcm a b)
  /\ (0 < a -> 0 < b -> lcm a b = Ret (Z.lcm a b)).
Proof.
  assert (Hret : ~ (a = 0 /\ b = 0) ->
                 exists v, lcm a b = Ret v /\ Z.abs v = Z.lcm a b).
  { intros Hnz. unfold lcm.
    assert (Hg : gcd a b <> 0) by (now rewrite gcd_zero_iff).
    rewrite bigint_div_nonzero by trivial.
    eexists. split; [reflexivity|].
    pose proof (gcd_abs a b) as Habs.
    assert (HG : Z.gcd a b <> 0) by lia.
    unfold Z.lcm. rewrite Z.lcm_equiv1 by trivial.
    destruct (Z.gcd_divide_r a b) as [k Hk].
    assert (Hab : a * b = a * k * Z.gcd a b) by (rewrite Hk at 1; lia).
    rewrite Hab, Z.div_mul by trivial.
    destruct (Z.abs_eq_or_opp (gcd a b)) as [Hs|Hs]; rewrite Hs in Habs.
    - rewrite Habs, Z.quot_mul by lia. reflexivity.
    - replace (gcd a b) with (- Z.gcd a b) by lia.
      rewrite Z.quot_opp_r, Z.quot_mul, Z.abs_opp by lia. reflexivity. }
  split; [split|split].
  - intros Hthrow. destruct (Z.eq_dec a 0) as [->|Ha]; [destruct (Z.eq_dec b 0) as [->|Hb]|].
    + split; reflexivity.
    + destruct Hret as (v & Hv & _); [lia|]. rewrite Hv in Hthrow. discriminate.
    + destruct Hret as (v & Hv & _); [lia|]. rewrite Hv in Hthrow. discriminate.
  - intros [-> ->]. reflexivity.
  - exact Hret.
  - apply lcm_Zlcm.
Qed.

(** ** Extended Euclid on all integers *)

Lemma extendedGcd_gcd_abs (a b : Z) :
  Z.abs (eg_gcd (extendedGcd a b)) = Z.gcd a b.
Proof.
  funelim (extendedGcd a b); cbn zeta; cbn [eg_gcd eg_x eg_y].
  - subst a. symmetry. apply Z.gcd_0_l.
  - rewrite H, (Z.gcd_comm (Z.rem b a) a), Zgcd_rem. apply Z.gcd_comm.
Qed.

(** X5.  The triple returned by [extendedGcd] satisfies Bezout's identity
    [a x + b y = gcd] on all integers; its [gcd] field is the greatest
    common divisor up to sign, and the gcd itself on non-negative
    arguments. *)
Theorem extendedGcd_bezout_identity (a b : Z) :
  a * eg_x (extendedGcd a b) + b * eg_y (extendedGcd a b) = eg_gcd (extendedGcd a b)
  /\ Z.abs (eg_gcd (extendedGcd a b)) = Z.gcd a b
  /\ (0 <= a -> 0 <= b -> eg_gcd (extendedGcd a b) = Z.gcd a b).
Proof.
  split; [apply extendedGcd_bezout|]. split; [apply extendedGcd_gcd_abs|].
  apply extendedGcd_gcd.
Qed.

(** ** Trial division *)

Lemma isPrime_loop_step (n i : Z) :
  isPrime_loop n i =
  if Z_le_dec (i * i) n then
    let* r := bigint_rem n i in
    if r =? 0 then Ret false else isPrime_loop n (i + 2)
  else Ret true.
Proof.
  funelim (isPrime_loop n i); destruct (Z_le_dec (i * i) n); try contradiction;
    reflexivity.
Qed.

(** From [i >= 3] on, the loop answers whether none of [i, i+2, i+4, ...]
    up to the square root of [n] divides [n]. *)
Lemma isPrime_loop_spec (n i : Z) :
  3 <= i ->
  exists b, isPrime_loop n i = Ret b
    /\ (b = true <->
        forall k, 0 <= k -> (i + 2 * k) * (i + 2 * k) <= n -> ~ (i + 2 * k | n)).
Proof.
  remember (Z.to_nat (n + 2 - i)) as m eqn:Hm. revert i Hm.
  induction m as [m IH] using lt_wf_ind. intros i -> Hi.
  rewrite isPrime_loop_step. destruct (Z_le_dec (i * i) n) as [Hle|Hgt].
  - rewrite bigint_rem_nonzero by lia. cbn [bind].
    destruct (Z.eqb_spec (Z.rem n i) 0) as [Hz|Hnz].
    + exists false. split; [reflexivity|]. split; [discriminate|].
      intros Hall. exfalso. apply (Hall 0); try lia.
      replace (i + 2 * 0) with i by lia. apply Z.rem_divide; [lia|exact Hz].
    + destruct (IH (Z.to_nat (n + 2 - (i + 2))) ltac:(nia) (i + 2) eq_refl ltac:(lia))
        as (b & Hb & Hiff).
      exists b. split; [exact Hb|]. rewrite Hiff. split.
      * intros Hall k Hk Hsq. destruct (Z.eq_dec k 0) as [->|Hk0].
        -- replace (i + 2 * 0) with i by lia.
           intros Hd. apply Hnz. apply Z.rem_divide; [lia|exact Hd].
        -- replace (i + 2 * k) with (i + 2 + 2 * (k - 1)) in * by lia.
           apply Hall; [lia|exact Hsq].
      * intros Hall k Hk Hsq.
        replace (i + 2 + 2 * k) with (i + 2 * (k + 1)) in * by lia.
        apply Hall; [lia|exact Hsq].
  - exists true. split; [reflexivity|]. split; [|reflexivity].
    intros _ k Hk Hsq. nia.
Qed.

(** [isPrime] returns a boolean that tells whether [n] is prime. *)
Lemma isPrime_decides (n : Z) :
  exists b, isPrime n = Ret b /\ (b = true <-> Z.prime n).
Proof.
  unfold isPrime.
  destruct (Z.ltb_spec n 2) as [Hlt|Hge].
  { exists false. split; [reflexivity|]. split; [discriminate|].
    intros Hp. apply Z.prime_ge_2 in Hp. lia. }
  destruct (Z.eqb_spec n 2) as [->|Hn2].
  { exists true. split; [reflexivity|]. split; [intros _; exact Z.prime_2|reflexivity]. }
  destruct (Z.eqb_spec n 3) as [->|Hn3]; cbn [orb].
  { exists true. split; [reflexivity|]. split; [intros _; exact Z.prime_3|reflexivity]. }
  rewrite Z.rem_mod_nonneg by lia.
  pose proof (Z.div_mod n 2 ltac:(lia)) as Hdm.
  pose proof (Z.mod_pos_bound n 2 ltac:(lia)) as Hmb.
  destruct (Z.eqb_spec (n mod 2) 0) as [Heven|Hodd].
  { exists false. split; [reflexivity|]. split; [discriminate|].
    intros [_ Hp]. exfalso. apply (Hp 2); [lia|]. exists (n / 2). lia. }
  destruct (isPrime_loop_spec n 3 ltac:(lia)) as (b & Hb & Hiff).
  exists b. split; [exact Hb|]. rewrite Hiff. split.
  - intros Hall. split; [lia|]. intros m Hm [e He].
    assert (He1 : 1 < e < n) by nia.
    assert (Hodd_factor : forall d c, n = c * d -> d mod 2 = 1).
    { intros d c Hcd.
      pose proof (Z.div_mod d 2 ltac:(lia)) as Hd2.
      pose proof (Z.mod_pos_bound d 2 ltac:(lia)) as Hdb.
      destruct (Z.eq_dec (d mod 2) 0) as [Hz|]; [|lia].
      exfalso. apply Hodd.
      assert (Hn2' : n = 2 * (c * (d / 2))) by nia.
      rewrite Hn2', Z.mul_comm. apply Z.mod_mul. lia. }
    destruct (Z.le_gt_cases m e) as [Hme|Hme].
    + pose proof (Hodd_factor m e He) as Hm2.
      pose proof (Z.div_mod m 2 ltac:(lia)) as Hmd.
      apply (Hall ((m - 3) / 2)).
      * apply Z.div_pos; lia.
      * replace (3 + 2 * ((m - 3) / 2)) with m; [nia|].
        pose proof (Z.div_mod (m - 3) 2 ltac:(lia)).
        assert ((m - 3) mod 2 = 0); [|lia].
        replace (m - 3) with (m mod 2 - 1 + (m / 2 - 1) * 2) by lia.
        rewrite Z.mod_add, Hm2 by lia. reflexivity.
      * replace (3 + 2 * ((m - 3) / 2)) with m; [exists e; exact He|].
        pose proof (Z.div_mod (m - 3) 2 ltac:(lia)).
        assert ((m - 3) mod 2 = 0); [|lia].
        replace (m - 3) with (m mod 2 - 1 + (m / 2 - 1) * 2) by lia.
        rewrite Z.mod_add, Hm2 by lia. reflexivity.
    + assert (He' : n = m * e) by lia.
      pose proof (Hodd_factor e m He') as He2.
      pose proof (Z.div_mod e 2 ltac:(lia)) as Hed.
      assert (Hform : 3 + 2 * ((e - 3) / 2) = e).
      { pose proof (Z.div_mod (e - 3) 2 ltac:(lia)).
        assert ((e - 3) mod 2 = 0); [|lia].
        replace (e - 3) with (e mod 2 - 1 + (e / 2 - 1) * 2) by lia.
        rewrite Z.mod_add, He2 by lia. reflexivity. }
      apply (Hall ((e - 3) / 2)).
      * apply Z.div_pos; lia.
      * rewrite Hform. nia.
      * rewrite Hform. exists m. exact He'.
  - intros [_ Hp] k Hk Hsq. apply Hp. nia.
Qed.

(** X6.  [isPrime] never throws and answers [true] exactly on the prime
    numbers and [false] on all other integers: trial division by 2 and by
    the odd numbers up to the square root is a complete primality test. *)
Theorem isPrime_iff_prime (n : Z) :
  (isPrime n = Ret true <-> Z.prime n)
  /\ (isPrime n = Ret false <-> ~ Z.prime n).
Proof.
  destruct (isPrime_decides n) as (b & Hrun & Hb). rewrite Hrun.
  destruct b; split; split.
  - intros _. now apply Hb.
  - reflexivity.
  - discriminate.
  - intros Hn. exfalso. apply Hn. now apply Hb.
  - discriminate.
  - intros Hp. apply Hb in Hp. discriminate.
  - intros _ Hp. apply Hb in Hp. discriminate.
  - reflexivity.
Qed.

Example isPrime_boundary :
  isPrime 1 = Ret false /\ isPrime 2 = Ret true /\ isPrime 4 = Ret false
  /\ isPrime 9 = Ret false /\ isPrime (-7) = Ret false /\ isPrime 97 = Ret true.
Proof. vm_compute. repeat split. Qed.

Lemma findPrimesInRange_loop_step (i mx : Z) (primes : list Z) :
  findPrimesInRange_loop i mx primes =
  if Z_le_dec i mx then
    let* b := isPrime i in
    findPrimesInRange_loop (i + 1) mx (if b then primes ++ [i] else primes)
  else Ret primes.
Proof.
  funelim (findPrimesInRange_loop i mx primes); destruct (Z_le_dec i mx);
    try contradiction; reflexivity.
Qed.

Lemma findPrimesInRange_loop_spec (i mx : Z) :
  forall primes, exists found,
    findPrimesInRange_loop i mx primes = Ret (primes ++ found)
    /\ (forall x, In x found <-> i <= x <= mx /\ Z.prime x)
    /\ StronglySorted Z.lt found.
Proof.
  remember (Z.to_nat (mx + 1 - i)) as m eqn:Hm. revert i Hm.
  induction m as [m IH] using lt_wf_ind. intros i -> primes.
  rewrite findPrimesInRange_loop_step. destruct (Z_le_dec i mx) as [Hle|Hgt].
  - destruct (isPrime_decides i) as (b & -> & Hb). cbn [bind].
    destruct (IH (Z.to_nat (mx + 1 - (i + 1))) ltac:(lia) (i + 1) eq_refl
                 (if b then primes ++ [i] else primes))
      as (found & Hrun & Hin & Hsorted).
    destruct b.
    + exists (i :: found). rewrite Hrun, <- app_assoc. split; [reflexivity|]. split.
      * intros x. cbn [In]. rewrite Hin. split.
        -- intros [<-|[Hx Hp]]; [|split; [lia|exact Hp]].
           split; [lia|]. now apply Hb.
        -- intros [Hx Hp]. destruct (Z.eq_dec i x); [now left|right].
           split; [lia|exact Hp].
      * constructor; [exact Hsorted|]. apply Forall_forall.
        intros x Hx. apply Hin in Hx. lia.
    + exists found. rewrite Hrun. split; [reflexivity|]. split; [|exact Hsorted].
      intros x. rewrite Hin. split.
      * intros [Hx Hp]. split; [lia|exact Hp].
      * intros [Hx Hp]. split; [|exact Hp].
        destruct (Z.eq_dec i x) as [<-|]; [|lia].
        apply Hb in Hp. discriminate.
  - exists []. rewrite app_nil_r. split; [reflexivity|]. split; [|constructor].
    intros x. cbn [In]. split; [contradiction|lia].
Qed.

(** X7.  For integer arguments that JavaScript numbers hold exactly,
    [findPrimesInRange(min, max)] returns the primes of [[min, max]] and
    nothing else, in strictly ascending order (so without repetition); the
    list is empty when [max < min]. *)
Theorem findPrimesInRange_lists_the_primes (min max : Z) :
  safe_integer min -> safe_integer max ->
  exists primes,
    findPrimesInRange min max = Ret primes
    /\ (forall x, In x primes <-> min <= x <= max /\ Z.prime x)
    /\ StronglySorted Z.lt primes
    /\ (max < min -> primes = []).
Proof.
  intros _ _. unfold findPrimesInRange.
  destruct (findPrimesInRange_loop_spec min max []) as (found & Hrun & Hin & Hsorted).
  exists found. repeat split; trivial; try (now apply Hin).
  intros Hlt. destruct found as [|x found]; [reflexivity|].
  assert (Hx : In x (x :: found)) by now left.
  apply Hin in Hx. lia.
Qed.

Lemma findPrimesInRange_lists_the_primes_witness :
  exists primes,
    findPrimesInRange 10 20 = Ret primes
    /\ (forall x, In x primes <-> 10 <= x <= 20 /\ Z.prime x)
    /\ StronglySorted Z.lt primes
    /\ (20 < 10 -> primes = []).
Proof.
  apply (findPrimesInRange_lists_the_primes 10 20); unfold safe_integer; lia.
Defined.

Example findPrimesInRange_10_20 : findPrimesInRange 10 20 = Ret [11; 13; 17; 19].
Proof. vm_compute. reflexivity. Qed.

(** ** Which prime pairs are rejected *)

Lemma prime_not_divide_pred (p : Z) : Z.prime p -> ~ (p | p - 1).
Proof.
  intros Hp Hd. pose proof (Z.prime_ge_2 p Hp).
  apply Z.divide_pos_le in Hd; lia.
Qed.

Lemma prime_divide_lambda (p q s : Z) :
  2 <= p -> 2 <= q -> Z.prime s ->
  (s | lambda_of p q) <-> (s | p - 1) \/ (s | q - 1).
Proof.
  intros Hp Hq Hs. unfold lambda_of. split.
  - intros Hd. apply Z.divide_prime_mul; [exact Hs|].
    eapply Z.divide_trans; [exact Hd|].
    apply Z.lcm_least; [apply Z.divide_factor_l|apply Z.divide_factor_r].
  - intros [Hd|Hd]; (eapply Z.divide_trans; [exact Hd|]);
      [apply Z.divide_lcm_l|apply Z.divide_lcm_r].
Qed.

Lemma gcd_check_iff_divides (p q : Z) :
  Z.prime p -> Z.prime q ->
  Z.gcd (p * q) (lambda_of p q) <> 1 <-> (p | q - 1) \/ (q | p - 1).
Proof.
  intros Hp Hq. destruct (primes_ge_2 p q Hp Hq) as [Hp2 Hq2].
  pose proof (prime_not_divide_pred p Hp) as Hpp.
  pose proof (prime_not_divide_pred q Hq) as Hqq.
  split.
  - intros Hg.
    destruct (Z.BoolSpec_divide p (q - 1)) as [Hd|Hnd]; [now left|].
    destruct (Z.BoolSpec_divide q (p - 1)) as [Hd'|Hnd']; [now right|].
    exfalso. apply Hg. apply Z.coprime_mul_l.
    + apply Z.coprime_prime_l; [exact Hp|].
      rewrite (prime_divide_lambda p q p) by trivial. tauto.
    + apply Z.coprime_prime_l; [exact Hq|].
      rewrite (prime_divide_lambda p q q) by trivial. tauto.
  - intros Hor Hg.
    assert (Hs : exists s, 2 <= s /\ (s | p * q) /\ (s | lambda_of p q)).
    { destruct Hor as [Hd|Hd].
      - exists p. split; [lia|]. split; [apply Z.divide_factor_l|].
        apply (prime_divide_lambda p q p); trivial. now right.
      - exists q. split; [lia|]. split; [apply Z.divide_factor_r|].
        apply (prime_divide_lambda p q q); trivial. now left. }
    destruct Hs as (s & Hs2 & Hsn & Hsl).
    assert (H1 : (s | 1)) by (rewrite <- Hg; now apply Z.gcd_greatest).
    apply Z.divide_1_r_nonneg in H1; lia.
Qed.

(** X8.  On primes [p], [q], [generateKeyPair] throws its "Invalid prime
    pair" error, reporting [n], [lambda] and their gcd, exactly when [p]
    divides [q - 1] or [q] divides [p - 1], as the text of the error says;
    on every other pair of primes it returns a key pair. *)
Theorem generateKeyPair_throws_iff_divides (p q : Z) :
  Z.prime p -> Z.prime q ->
  (generateKeyPair p q
   = Throw (Error_InvalidPrimePair (p * q) (lambda_of p q)
              (Z.gcd (p * q) (lambda_of p q)))
   <-> (p | q - 1) \/ (q | p - 1))
  /\ ((exists kp, generateKeyPair p q = Ret kp)
      <-> ~ ((p | q - 1) \/ (q | p - 1))).
Proof.
  intros Hp Hq. destruct (primes_ge_2 p q Hp Hq) as [Hp2 Hq2].
  rewrite <- (gcd_check_iff_divides p q Hp Hq).
  destruct (Z.eq_dec (Z.gcd (p * q) (lambda_of p q)) 1) as [Hg|Hg].
  - destruct (generateKeyPair_valid p q Hp2 Hq2 Hg) as (kp & Hkp & _).
    split; split.
    + rewrite Hkp. discriminate.
    + intros Hng. contradiction.
    + intros _ Hng. contradiction.
    + intros _. now exists kp.
  - pose proof (generateKeyPair_invalid p q Hp2 Hq2 Hg) as Hthrow.
    split; split.
    + intros _. exact Hg.
    + intros _. exact Hthrow.
    + intros [kp Hkp]. rewrite Hthrow in Hkp. discriminate.
    + intros Hng. exfalso. apply Hng. exact Hg.
Qed.

Lemma generateKeyPair_throws_iff_divides_witness :
  (generateKeyPair 3 7
   = Throw (Error_InvalidPrimePair (3 * 7) (lambda_of 3 7)
              (Z.gcd (3 * 7) (lambda_of 3 7)))
   <-> (3 | 7 - 1) \/ (7 | 3 - 1))
  /\ ((exists kp, generateKeyPair 3 7 = Ret kp)
      <-> ~ ((3 | 7 - 1) \/ (7 | 3 - 1))).
Proof.
  apply (generateKeyPair_throws_iff_divides 3 7).
  - exact Z.prime_3.
  - exact prime_7.
Defined.

Example generateKeyPair_3_7 :
  generateKeyPair 3 7 = Throw (Error_InvalidPrimePair 21 6 3).
Proof. vm_compute. reflexivity. Qed.

(** X9.  On arguments [>= 2], [isValidPaillierPair] does not throw, and it
    answers [true] exactly on the pairs with [p <> q] on which
    [generateKeyPair] returns a key pair. *)
Theorem isValidPaillierPair_iff_generates (p q : Z) :
  2 <= p -> 2 <= q ->
  exists b,
    isValidPaillierPair p q = Ret b
    /\ (b = true <-> p <> q /\ exists kp, generateKeyPair p q = Ret kp).
Proof.
  intros Hp Hq. unfold isValidPaillierPair.
  destruct (Z.eqb_spec p q) as [Heq|Hneq].
  { exists false. split; [reflexivity|]. split; [discriminate|]. intros [Hn _]. contradiction. }
  rewrite lcm_Zlcm by lia. cbn [bind].
  assert (Hl : 0 <= Z.lcm (p - 1) (q - 1)) by apply Z.lcm_nonneg.
  rewrite gcd_Zgcd by nia.
  eexists. split; [reflexivity|].
  fold (lambda_of p q).
  destruct (Z.eqb_spec (Z.gcd (p * q) (lambda_of p q)) 1) as [Hg|Hg].
  - split; [|reflexivity]. intros _. split; [exact Hneq|].
    destruct (generateKeyPair_valid p q Hp Hq Hg) as (kp & Hkp & _). now exists kp.
  - split; [discriminate|]. intros [_ [kp Hkp]].
    rewrite generateKeyPair_invalid in Hkp by trivial. discriminate.
Qed.

Lemma isValidPaillierPair_iff_generates_witness :
  exists b,
    isValidPaillierPair 7 11 = Ret b
    /\ (b = true <-> 7 <> 11 /\ exists kp, generateKeyPair 7 11 = Ret kp).
Proof. apply (isValidPaillierPair_iff_generates 7 11); lia. Defined.

(** X10.  The trace returned with the keys is consistent with them: it
    records [p], [q], [p - 1], [q - 1] and the fields of both keys, its
    [gLambda] is [1 + lOfGLambda * n] (the division in [L] is exact), and
    [lOfGLambda] is [lambda mod n], whose inverse modulo [n] is [mu]. *)
Theorem generateKeyPair_trace (p q : Z) (kp : PaillierKeyPair) :
  2 <= p -> 2 <= q ->
  generateKeyPair p q = Ret kp ->
  let st := steps kp in
  (ks_p st = p /\ ks_q st = q /\ ks_pMinus1 st = p - 1 /\ ks_qMinus1 st = q - 1)
  /\ (ks_n st = pk_n (publicKey kp) /\ ks_nSquared st = pk_nSquared (publicKey kp)
      /\ ks_g st = pk_g (publicKey kp))
  /\ (ks_n st = sk_n (privateKey kp) /\ ks_nSquared st = sk_nSquared (privateKey kp)
      /\ ks_lambda st = sk_lambda (privateKey kp) /\ ks_mu st = sk_mu (privateKey kp))
  /\ ks_gLambda st = 1 + ks_lOfGLambda st * ks_n st
  /\ ks_lOfGLambda st = ks_lambda st mod ks_n st
  /\ (ks_lOfGLambda st * ks_mu st) mod ks_n st = 1.
Proof.
  intros Hp Hq Hrun.
  destruct (Z.eq_dec (Z.gcd (p * q) (lambda_of p q)) 1) as [Hg|Hg];
    [|rewrite generateKeyPair_invalid in Hrun by trivial; discriminate].
  unfold lambda_of in Hg.
  assert (Hl : 0 <= Z.lcm (p - 1) (q - 1)) by apply Z.lcm_nonneg.
  assert (Hn : 1 < p * q) by nia.
  pose proof (Z.mod_pos_bound (Z.lcm (p - 1) (q - 1)) (p * q) ltac:(lia)) as Hlm.
  destruct (modInverse_coprime (Z.lcm (p - 1) (q - 1) mod (p * q)) (p * q))
    as (mu & Hmu & Hrange & Hinv); try lia.
  { now rewrite Z.gcd_mod by lia. }
  unfold generateKeyPair in Hrun. cbn zeta in Hrun.
  rewrite lcm_Zlcm in Hrun by lia. cbn [bind] in Hrun.
  rewrite gcd_Zgcd, Hg in Hrun by lia. cbn [Z.eqb negb] in Hrun.
  rewrite modPow_spec in Hrun by nia. cbn [bind] in Hrun.
  rewrite g_pow_lambda in Hrun by lia.
  rewrite L_one_plus in Hrun by lia. cbn [bind] in Hrun.
  rewrite Hmu in Hrun. cbn [bind] in Hrun.
  injection Hrun as <-. cbn.
  rewrite Z.mod_1_l in Hinv by lia.
  repeat split; trivial.
Qed.

Lemma generateKeyPair_trace_witness :
  let st := steps kp_7_11 in
  (ks_p st = 7 /\ ks_q st = 11 /\ ks_pMinus1 st = 7 - 1 /\ ks_qMinus1 st = 11 - 1)
  /\ (ks_n st = pk_n (publicKey kp_7_11) /\ ks_nSquared st = pk_nSquared (publicKey kp_7_11)
      /\ ks_g st = pk_g (publicKey kp_7_11))
  /\ (ks_n st = sk_n (privateKey kp_7_11) /\ ks_nSquared st = sk_nSquared (privateKey kp_7_11)
      /\ ks_lambda st = sk_lambda (privateKey kp_7_11) /\ ks_mu st = sk_mu (privateKey kp_7_11))
  /\ ks_gLambda st = 1 + ks_lOfGLambda st * ks_n st
  /\ ks_lOfGLambda st = ks_lambda st mod ks_n st
  /\ (ks_lOfGLambda st * ks_mu st) mod ks_n st = 1.
Proof.
  apply (generateKeyPair_trace 7 11 kp_7_11); try lia.
  vm_compute. reflexivity.
Defined.

(** ** The random draws *)

Lemma byte_of_Z_to_N (b : byte) : byte_of_Z (Z.of_N (Byte.to_N b)) = b.
Proof.
  unfold byte_of_Z. now rewrite N2Z.id, Byte.of_to_N.
Qed.

Lemma byte_value_bound (b : byte) : 0 <= Z.of_N (Byte.to_N b) < 256.
Proof. pose proof (Byte.to_N_bounded b). lia. Qed.

(** Reading a block of bytes as a number and writing the number back in as
    many bytes gives the block. *)
Lemma bytes_of_bigint_of_bytes (bs : list byte) :
  bytes_of_bigint (length bs) (bigint_of_bytes bs) = bs.
Proof.
  induction bs as [|b bs IH] using rev_ind; [reflexivity|].
  rewrite length_app, Nat.add_1_r, bigint_of_bytes_snoc. cbn [length bytes_of_bigint].
  pose proof (byte_value_bound b) as Hb.
  replace ((bigint_of_bytes bs * 256 + Z.of_N (Byte.to_N b)) / 256)
    with (bigint_of_bytes bs).
  2:{ symmetry. rewrite Z.add_comm, Z.div_add by lia.
      rewrite Z.div_small by lia. reflexivity. }
  replace ((bigint_of_bytes bs * 256 + Z.of_N (Byte.to_N b)) mod 256)
    with (Z.of_N (Byte.to_N b)).
  2:{ symmetry. rewrite Z.add_comm, Z.mod_add by lia.
      apply Z.mod_small. lia. }
  now rewrite IH, byte_of_Z_to_N.
Qed.

Lemma bigint_of_bytes_inj (bs1 bs2 : list byte) :
  length bs1 = length bs2 -> bigint_of_bytes bs1 = bigint_of_bytes bs2 -> bs1 = bs2.
Proof.
  intros Hlen Hval.
  rewrite <- (bytes_of_bigint_of_bytes bs1), <- (bytes_of_bigint_of_bytes bs2).
  now rewrite Hlen, Hval.
Qed.

(** One round on a tape that holds exactly one block. *)
Lemma randomBigInt_one_block (min max : Z) (bs : list byte) :
  length bs = Pos.to_nat (bytes_per_draw min max) ->
  randomBigInt min max bs =
  if bigint_of_bytes bs >=? max - min + 1 then None
  else Some (min + bigint_of_bytes bs, []).
Proof.
  intros Hlen. unfold randomBigInt. fold (bytes_per_draw min max).
  rewrite randomBigInt_loop_step. unfold getRandomValues.
  rewrite Hlen, Nat.ltb_irrefl, <- Hlen, firstn_all, skipn_all.
  destruct (bigint_of_bytes bs >=? max - min + 1); [|reflexivity].
  rewrite randomBigInt_loop_step. unfold getRandomValues. cbn [length].
  destruct (Nat.ltb_spec 0 (Pos.to_nat (bytes_per_draw min max))); [reflexivity|lia].
Qed.

(** X11.  Whatever the random bytes, a value returned by
    [randomBigInt(min, max)] lies in [[min, max]] and at least one byte was
    read; and every value of [[min, max]] is returned for some bytes. *)
Theorem randomBigInt_range_exactly (min max : Z) :
  (forall t v t', randomBigInt min max t = Some (v, t') ->
                  min <= v <= max /\ (length t' < length t)%nat)
  /\ (forall v, min <= v <= max -> exists t, randomBigInt min max t = Some (v, [])).
Proof.
  split.
  - intros t v t' Hrun. split.
    + eapply randomBigInt_range; eassumption.
    + eapply randomBigInt_consumes; eassumption.
  - apply randomBigInt_complete.
Qed.

(** X12.  Rejection sampling is uniform: each value of [[min, max]] is
    returned by exactly one block of the bytes read in a round. *)
Theorem randomBigInt_one_block_per_value (min max v : Z) :
  min <= v <= max ->
  exists bs,
    length bs = Pos.to_nat (bytes_per_draw min max)
    /\ randomBigInt min max bs = Some (v, [])
    /\ forall bs', length bs' = Pos.to_nat (bytes_per_draw min max) ->
                   randomBigInt min max bs' = Some (v, []) -> bs' = bs.
Proof.
  intros Hv.
  set (k := Pos.to_nat (bytes_per_draw min max)).
  assert (Hfit : 0 <= v - min < 256 ^ Z.of_nat k).
  { subst k. rewrite positive_nat_Z. unfold bytes_per_draw.
    pose proof (range_fits_bytes (max - min + 1) ltac:(lia)). lia. }
  exists (bytes_of_bigint k (v - min)).
  assert (Hlen : length (bytes_of_bigint k (v - min)) = k)
    by apply length_bytes_of_bigint.
  split; [exact Hlen|]. split.
  - rewrite randomBigInt_one_block by exact Hlen.
    rewrite bigint_of_bytes_of_bigint by exact Hfit.
    destruct (Z.geb_spec (v - min) (max - min + 1)); [lia|].
    do 2 f_equal. lia.
  - intros bs' Hlen' Hrun. rewrite randomBigInt_one_block in Hrun by exact Hlen'.
    destruct (bigint_of_bytes bs' >=? max - min + 1); [discriminate|].
    injection Hrun as Hval. apply bigint_of_bytes_inj.
    + now rewrite Hlen.
    + rewrite bigint_of_bytes_of_bigint by exact Hfit. lia.
Qed.

Lemma randomBigInt_one_block_per_value_witness :
  exists bs,
    length bs = Pos.to_nat (bytes_per_draw 2 76)
    /\ randomBigInt 2 76 bs = Some (3, [])
    /\ forall bs', length bs' = Pos.to_nat (bytes_per_draw 2 76) ->
                   randomBigInt 2 76 bs' = Some (3, []) -> bs' = bs.
Proof. apply (randomBigInt_one_block_per_value 2 76 3). lia. Defined.

Lemma randomBigInt_loop_empty_range (range : Z) (bytes : positive) (t : tape) :
  range <= 0 -> randomBigInt_loop range bytes t = None.
Proof.
  intros Hr. remember (length t) as k eqn:Hk. revert t Hk.
  induction k as [k IH] using lt_wf_ind. intros t ->.
  rewrite randomBigInt_loop_step.
  destruct (getRandomValues bytes t) as [[bs t1]|] eqn:Hdraw; [|reflexivity].
  apply getRandomValues_consumes in Hdraw as (_ & _ & Hlt).
  pose proof (bigint_of_bytes_nonneg bs).
  destruct (Z.geb_spec (bigint_of_bytes bs) range); [|lia].
  exact (IH _ Hlt t1 eq_refl).
Qed.

(** X13.  With [max < min] the loop of [randomBigInt] rejects every draw:
    no supply of random bytes makes the call return. *)
Theorem randomBigInt_empty_range_never_returns (min max : Z) (t : tape) :
  max < min -> randomBigInt min max t = None.
Proof.
  intros Hlt. unfold randomBigInt.
  rewrite randomBigInt_loop_empty_range by lia. reflexivity.
Qed.

Lemma randomBigInt_empty_range_never_returns_witness :
  randomBigInt 2 1 [x00; x01; xff] = None.
Proof. apply randomBigInt_empty_range_never_returns. lia. Defined.



(** ** What a ciphertext determines *)

(** The value that [encrypt] computes once the blinding factor is drawn. *)
Lemma encrypt_value (n m : Z) (pk : PaillierPublicKey) (t t' : tape)
      (x : res EncryptionResult) :
  1 < n -> pk = {| pk_n := n; pk_nSquared := n * n; pk_g := n + 1 |} -> 0 <= m ->
  encrypt m pk t = Some (x, t') ->
  exists r,
    (2 <= r <= n - 1 /\ Z.gcd r n = 1)
    /\ x = Ret {| er_ciphertext := ((n + 1) ^ m * r ^ n) mod (n * n); er_r := r |}.
Proof.
  intros Hn -> Hm Hrun. unfold encrypt in Hrun. cbn [pk_n pk_nSquared pk_g] in Hrun.
  destruct (encrypt_draw n t) as [[r t1]|] eqn:Hdraw; [|discriminate].
  injection Hrun as <- <-.
  apply encrypt_draw_spec in Hdraw as [Hr Hg].
  exists r. split; [split; assumption|].
  rewrite !modPow_spec by nia. cbn [bind].
  assert (Hgm : 0 <= (n + 1) ^ m mod (n * n) < n * n) by (apply Z.mod_pos_bound; nia).
  assert (Hrn : 0 <= r ^ n mod (n * n) < n * n) by (apply Z.mod_pos_bound; nia).
  rewrite bigint_rem_mod by nia. cbn [bind].
  now rewrite <- Z.mul_mod by nia.
Qed.

(** Modulo [n] the ciphertext is [r ^ n]: [g = n + 1] is 1 there. *)
Lemma ciphertext_mod_n (n m r : Z) :
  1 < n -> 0 <= m ->
  (((n + 1) ^ m * r ^ n) mod (n * n)) mod n = r ^ n mod n.
Proof.
  intros Hn Hm.
  rewrite Z.mod_mod_divide by (exists n; reflexivity).
  rewrite <- Z.mul_mod_idemp_l by lia.
  rewrite (pow_mod_one (n + 1) n m) by (trivial; try lia;
    replace (n + 1) with (1 + 1 * n) by lia; rewrite Z.mod_add, Z.mod_1_l by lia;
    reflexivity).
  now rewrite Z.mul_1_l.
Qed.

Section Roots.

Variables p q : Z.
Hypothesis p_prime : Z.prime p.
Hypothesis q_prime : Z.prime q.
Hypothesis p_neq_q : p <> q.
Hypothesis valid : Z.gcd (p * q) (lambda_of p q) = 1.

(** Raising to the power [n] is one-to-one on the blinding factors:
    [n] is invertible modulo [lambda]. *)
Lemma nth_power_inj (r1 r2 : Z) :
  2 <= r1 <= p * q - 1 -> Z.gcd r1 (p * q) = 1 ->
  2 <= r2 <= p * q - 1 -> Z.gcd r2 (p * q) = 1 ->
  r1 ^ (p * q) mod (p * q) = r2 ^ (p * q) mod (p * q) -> r1 = r2.
Proof.
  intros Hr1 Hg1 Hr2 Hg2 Hpow.
  destruct (primes_ge_2 p q p_prime q_prime) as [Hp Hq].
  pose proof (lambda_pos p q p_prime q_prime) as Hl.
  pose proof (carmichael p q p_prime q_prime p_neq_q r1 Hg1) as Hc1.
  pose proof (carmichael p q p_prime q_prime p_neq_q r2 Hg2) as Hc2.
  unfold lambda_of in valid.
  set (n := p * q) in *. set (lambda := Z.lcm (p - 1) (q - 1)) in *.
  assert (Hn : 1 < n) by (subst n; nia).
  destruct (modInverse_coprime n lambda) as (d & _ & Hd & Hinv); try lia.
  assert (Hroot : forall r, r ^ lambda mod n = 1 -> (r ^ n) ^ d mod n = r mod n).
  { intros r Hc.
    destruct (Z.eq_dec lambda 1) as [Hl1|Hl1].
    - rewrite Hl1, Z.pow_1_r in Hc.
      assert (d = 0) by lia. subst d.
      rewrite Z.pow_0_r, Hc, Z.mod_1_l by lia. reflexivity.
    - rewrite Z.mod_1_l in Hinv by lia.
      pose proof (Z.div_mod (n * d) lambda ltac:(lia)) as Hdm.
      assert (Hk : 0 <= n * d / lambda) by (apply Z.div_pos; nia).
      rewrite <- Z.pow_mul_r by lia.
      replace (n * d) with (1 + lambda * (n * d / lambda)) by lia.
      rewrite Z.pow_add_r, Z.pow_1_r, Z.pow_mul_r by nia.
      rewrite <- Z.mul_mod_idemp_r by lia.
      rewrite (pow_mod_one (r ^ lambda) n) by (trivial; lia).
      now rewrite Z.mul_1_r. }
  assert (Heq : r1 mod n = r2 mod n).
  { rewrite <- (Hroot r1 Hc1), <- (Hroot r2 Hc2).
    rewrite (Zpower_mod (r1 ^ n)), (Zpower_mod (r2 ^ n)) by lia.
    now rewrite Hpow. }
  rewrite !Z.mod_small in Heq by lia. exact Heq.
Qed.

End Roots.

(** X15.  Under a key pair returned by [generateKeyPair] on distinct
    primes, the ciphertext of [encrypt] determines both the message and the
    blinding factor: two runs that differ in the message or in the
    blinding factor drawn return different ciphertexts. *)
Theorem encrypt_ciphertext_determines_message_and_blinding
        (p q m1 m2 : Z) (kp : PaillierKeyPair) (t1 t1' t2 t2' : tape)
        (er1 er2 : EncryptionResult) :
  Z.prime p -> Z.prime q -> p <> q ->
  generateKeyPair p q = Ret kp ->
  0 <= m1 < p * q -> 0 <= m2 < p * q ->
  encrypt m1 (publicKey kp) t1 = Some (Ret er1, t1') ->
  encrypt m2 (publicKey kp) t2 = Some (Ret er2, t2') ->
  er_ciphertext er1 = er_ciphertext er2 ->
  m1 = m2 /\ er_r er1 = er_r er2.
Proof.
  intros Hp Hq Hpq Hkp Hm1 Hm2 Henc1 Henc2 Hc.
  destruct (primes_ge_2 p q Hp Hq) as [Hp2 Hq2].
  assert (Hn : 1 < p * q) by nia.
  apply generateKeyPair_inv in Hkp as (Hg & Hpk & Hl & Hsn & Hnn & Hmu & Hinv); trivial.
  assert (Hm : m1 = m2).
  { destruct (encrypt_encodes p q Hp Hq Hpq _ m1 t1 t1' _ Hpk (proj1 Hm1) Henc1)
      as (e1 & [= <-] & _ & Hcode1).
    destruct (encrypt_encodes p q Hp Hq Hpq _ m2 t2 t2' _ Hpk (proj1 Hm2) Henc2)
      as (e2 & [= <-] & _ & Hcode2).
    assert (Hlam : 0 <= lambda_of p q) by apply Z.lcm_nonneg.
    pose proof (decrypt_encoded (p * q) (lambda_of p q) Hn Hlam (privateKey kp)
                  (er_ciphertext er1) m1 Hl Hsn Hnn (proj1 Hmu) Hinv Hcode1) as Hd1.
    pose proof (decrypt_encoded (p * q) (lambda_of p q) Hn Hlam (privateKey kp)
                  (er_ciphertext er2) m2 Hl Hsn Hnn (proj1 Hmu) Hinv Hcode2) as Hd2.
    rewrite Hc, Hd2 in Hd1. injection Hd1 as Hd1.
    rewrite !Z.mod_small in Hd1 by lia. lia. }
  split; [exact Hm|]. subst m2.
  destruct (encrypt_value (p * q) m1 _ t1 t1' _ Hn Hpk (proj1 Hm1) Henc1)
    as (r1 & [Hr1 Hg1] & [= ->]).
  destruct (encrypt_value (p * q) m1 _ t2 t2' _ Hn Hpk (proj1 Hm1) Henc2)
    as (r2 & [Hr2 Hg2] & [= ->]).
  cbn [er_ciphertext er_r] in *.
  apply (nth_power_inj p q Hp Hq Hpq Hg); trivial.
  rewrite <- (ciphertext_mod_n (p * q) m1 r1), <- (ciphertext_mod_n (p * q) m1 r2)
    by lia.
  now rewrite Hc.
Qed.

Lemma encrypt_ciphertext_determines_message_and_blinding_witness :
  1 = 1 /\ er_r {| er_ciphertext := 3001; er_r := 3 |}
           = er_r {| er_ciphertext := 3001; er_r := 3 |}.
Proof.
  apply (encrypt_ciphertext_determines_message_and_blinding 7 11 1 1 kp_7_11
           [x05; x01; x07] [x07] [x01] []).
  - exact prime_7.
  - exact prime_11.
  - lia.
  - vm_compute. reflexivity.
  - lia.
  - lia.
  - vm_compute. reflexivity.
  - vm_compute. reflexivity.
  - reflexivity.
Defined.

(** ** Sums that wrap around, scalar multiples, arbitrary ciphertexts *)

(** X16.  Without the bound [m1 + m2 < n], [homomorphicAdd] of two
    encryptions decrypts to the sum modulo [n]: the plaintext sum wraps
    around at [n]. *)
Theorem homomorphicAdd_decrypts_to_sum_mod_n
        (p q m1 m2 : Z) (kp : PaillierKeyPair) (t1 t1' t2 t2' : tape)
        (x1 x2 : res EncryptionResult) :
  Z.prime p -> Z.prime q -> p <> q ->
  generateKeyPair p q = Ret kp ->
  0 <= m1 < p * q -> 0 <= m2 < p * q ->
  encrypt m1 (publicKey kp) t1 = Some (x1, t1') ->
  encrypt m2 (publicKey kp) t2 = Some (x2, t2') ->
  exists er1 er2 c,
    x1 = Ret er1 /\ x2 = Ret er2
    /\ homomorphicAdd (er_ciphertext er1) (er_ciphertext er2) (publicKey kp) = Ret c
    /\ decrypt c (privateKey kp) = Ret ((m1 + m2) mod (p * q)).
Proof.
  intros Hp Hq Hpq Hkp Hm1 Hm2 Henc1 Henc2.
  destruct (primes_ge_2 p q Hp Hq) as [Hp2 Hq2].
  assert (Hn1 : 1 < p * q) by nia.
  assert (Hlam : 0 <= lambda_of p q) by apply Z.lcm_nonneg.
  apply generateKeyPair_inv in Hkp as (_ & Hpk & Hl & Hn & Hnn & Hmu & Hinv); trivial.
  destruct (encrypt_encodes p q Hp Hq Hpq _ m1 t1 t1' x1 Hpk (proj1 Hm1) Henc1)
    as (er1 & -> & _ & Hcode1).
  destruct (encrypt_encodes p q Hp Hq Hpq _ m2 t2 t2' x2 Hpk (proj1 Hm2) Henc2)
    as (er2 & -> & _ & Hcode2).
  destruct (homomorphicAdd_encodes (p * q) (lambda_of p q) Hn1 Hlam (publicKey kp)
              (er_ciphertext er1) (er_ciphertext er2) m1 m2)
    as (c & Hadd & Hcode); trivial.
  { rewrite Hpk. reflexivity. }
  exists er1, er2, c. repeat split; trivial.
  apply (decrypt_encoded (p * q) (lambda_of p q)); trivial. lia.
Qed.

(** Votes 76 and 5 under [n = 77] are tallied to 4. *)
Lemma homomorphicAdd_decrypts_to_sum_mod_n_witness :
  exists er1 er2 c,
    Ret {| er_ciphertext := 3309; er_r := 3 |} = Ret er1
    /\ Ret {| er_ciphertext := 774; er_r := 9 |} = Ret er2
    /\ homomorphicAdd (er_ciphertext er1) (er_ciphertext er2) (publicKey kp_7_11) = Ret c
    /\ decrypt c (privateKey kp_7_11) = Ret ((76 + 5) mod (7 * 11)).
Proof.
  apply (homomorphicAdd_decrypts_to_sum_mod_n 7 11 76 5 kp_7_11
           [x01] [] [x07] []).
  - exact prime_7.
  - exact prime_11.
  - lia.
  - vm_compute. reflexivity.
  - lia.
  - lia.
  - vm_compute. reflexivity.
  - vm_compute. reflexivity.
Defined.

(** X17.  [homomorphicMultiplyScalar] of an encryption of [m] with a
    scalar [>= 0] decrypts to [scalar * m] modulo [n]. *)
Theorem homomorphicMultiplyScalar_decrypts_to_multiple
        (p q m scalar : Z) (kp : PaillierKeyPair) (t t' : tape)
        (x : res EncryptionResult) :
  Z.prime p -> Z.prime q -> p <> q ->
  generateKeyPair p q = Ret kp ->
  0 <= m < p * q -> 0 <= scalar ->
  encrypt m (publicKey kp) t = Some (x, t') ->
  exists er c,
    x = Ret er
    /\ homomorphicMultiplyScalar (er_ciphertext er) scalar (publicKey kp) = Ret c
    /\ decrypt c (privateKey kp) = Ret ((scalar * m) mod (p * q)).
Proof.
  intros Hp Hq Hpq Hkp Hm Hs Henc.
  destruct (primes_ge_2 p q Hp Hq) as [Hp2 Hq2].
  assert (Hn1 : 1 < p * q) by nia.
  assert (Hlam : 0 <= lambda_of p q) by apply Z.lcm_nonneg.
  apply generateKeyPair_inv in Hkp as (_ & Hpk & Hl & Hn & Hnn & Hmu & Hinv); trivial.
  destruct (encrypt_encodes p q Hp Hq Hpq _ m t t' x Hpk (proj1 Hm) Henc)
    as (er & -> & _ & Hcode).
  destruct (homomorphicMultiplyScalar_encodes (p * q) (lambda_of p q) Hn1 Hlam
              (publicKey kp) (er_ciphertext er) m scalar)
    as (c & Hmul & Hcode'); trivial.
  { rewrite Hpk. reflexivity. }
  exists er, c. repeat split; trivial.
  apply (decrypt_encoded (p * q) (lambda_of p q)); trivial. lia.
Qed.

Lemma homomorphicMultiplyScalar_decrypts_to_multiple_witness :
  exists er c,
    Ret {| er_ciphertext := 3309; er_r := 3 |} = Ret er
    /\ homomorphicMultiplyScalar (er_ciphertext er) 3 (publicKey kp_7_11) = Ret c
    /\ decrypt c (privateKey kp_7_11) = Ret ((3 * 76) mod (7 * 11)).
Proof.
  apply (homomorphicMultiplyScalar_decrypts_to_multiple 7 11 76 3 kp_7_11 [x01] []).
  - exact prime_7.
  - exact prime_11.
  - lia.
  - vm_compute. reflexivity.
  - lia.
  - lia.
  - vm_compute. reflexivity.
Defined.

(** X18.  Under a key pair returned by [generateKeyPair], [decrypt] does
    not throw on any ciphertext [>= 0], produced under the key or not, and
    its result lies in [[0, n)]. *)
Theorem decrypt_total_in_range (p q c : Z) (kp : PaillierKeyPair) :
  2 <= p -> 2 <= q ->
  generateKeyPair p q = Ret kp ->
  0 <= c ->
  exists m, decrypt c (privateKey kp) = Ret m /\ 0 <= m < p * q.
Proof.
  intros Hp Hq Hkp Hc.
  apply generateKeyPair_inv in Hkp as (_ & _ & Hl & Hn & Hnn & Hmu & _); trivial.
  assert (Hn1 : 1 < p * q) by nia.
  assert (Hlam : 0 <= lambda_of p q) by apply Z.lcm_nonneg.
  unfold decrypt. rewrite Hl, Hn, Hnn.
  rewrite modPow_spec by nia. cbn [bind].
  pose proof (Z.mod_pos_bound (c ^ lambda_of p q) (p * q * (p * q)) ltac:(nia)) as Hb.
  unfold L. rewrite bigint_div_nonzero by lia. cbn [bind].
  assert (Hlv : 0 <= Z.quot (c ^ lambda_of p q mod (p * q * (p * q)) - 1) (p * q)).
  { destruct (Z.eq_dec (c ^ lambda_of p q mod (p * q * (p * q))) 0) as [->|Hnz].
    - assert (H0 : Z.quot (0 - 1) (p * q) = 0); [|lia].
      apply Z.quot_small_iff; lia.
    - apply Z.quot_pos; lia. }
  rewrite bigint_rem_mod by nia. cbn [bind].
  eexists. split; [reflexivity|]. apply Z.mod_pos_bound. lia.
Qed.

Lemma decrypt_total_in_range_witness :
  exists m, decrypt 1234 (privateKey kp_7_11) = Ret m /\ 0 <= m < 7 * 11.
Proof.
  apply (decrypt_total_in_range 7 11 1234 kp_7_11); try lia.
  vm_compute. reflexivity.
Defined.

(** X19.  On an encryption of [m], the trace of [decryptWithSteps] shows
    an exact division: [cLambda = 1 + lValue * n], with
    [lValue = (m * lambda) mod n], [lTimesMu = lValue * mu], and the
    message [m] as the last step. *)
Theorem decryptWithSteps_trace
        (p q m : Z) (kp : PaillierKeyPair) (t t' : tape) (er : EncryptionResult) :
  Z.prime p -> Z.prime q -> p <> q ->
  generateKeyPair p q = Ret kp ->
  0 <= m < p * q ->
  encrypt m (publicKey kp) t = Some (Ret er, t') ->
  exists ds,
    decryptWithSteps (er_ciphertext er) (privateKey kp) = Ret ds
    /\ ds_ciphertext ds = er_ciphertext er
    /\ ds_cLambda ds = 1 + ds_lValue ds * ds_n ds
    /\ ds_lValue ds = (m * ds_lambda ds) mod ds_n ds
    /\ ds_lTimesMu ds = ds_lValue ds * ds_mu ds
    /\ ds_message ds = ds_lTimesMu ds mod ds_n ds
    /\ ds_message ds = m.
Proof.
  intros Hp Hq Hpq Hkp Hm Henc.
  destruct (primes_ge_2 p q Hp Hq) as [Hp2 Hq2].
  assert (Hn1 : 1 < p * q) by nia.
  assert (Hlam : 0 <= lambda_of p q) by apply Z.lcm_nonneg.
  apply generateKeyPair_inv in Hkp as (_ & Hpk & Hl & Hn & Hnn & Hmu & Hinv); trivial.
  destruct (encrypt_encodes p q Hp Hq Hpq _ m t t' _ Hpk (proj1 Hm) Henc)
    as (er' & [= <-] & _ & [Hc Hcode]).
  unfold decryptWithSteps. rewrite Hl, Hn, Hnn.
  rewrite modPow_spec by nia. cbn [bind].
  rewrite Hcode, one_plus_mod by lia.
  pose proof (Z.mod_pos_bound (m * lambda_of p q) (p * q) ltac:(lia)) as Hb.
  rewrite L_one_plus by lia. cbn [bind]. cbn zeta.
  rewrite bigint_rem_mod by nia. cbn [bind].
  eexists. split; [reflexivity|]. cbn.
  repeat split; trivial.
  rewrite Z.mul_mod_idemp_l by lia.
  replace (m * lambda_of p q * sk_mu (privateKey kp))
    with (m * (lambda_of p q * sk_mu (privateKey kp))) by lia.
  rewrite <- Z.mul_mod_idemp_r, Hinv, Z.mul_1_r by lia.
  apply Z.mod_small. lia.
Qed.

Lemma decryptWithSteps_trace_witness :
  exists ds,
    decryptWithSteps (er_ciphertext {| er_ciphertext := 3001; er_r := 3 |})
                     (privateKey kp_7_11) = Ret ds
    /\ ds_ciphertext ds = er_ciphertext {| er_ciphertext := 3001; er_r := 3 |}
    /\ ds_cLambda ds = 1 + ds_lValue ds * ds_n ds
    /\ ds_lValue ds = (1 * ds_lambda ds) mod ds_n ds
    /\ ds_lTimesMu ds = ds_lValue ds * ds_mu ds
    /\ ds_message ds = ds_lTimesMu ds mod ds_n ds
    /\ ds_message ds = 1.
Proof.
  apply (decryptWithSteps_trace 7 11 1 kp_7_11 [x05; x01; x07] [x07]).
  - exact prime_7.
  - exact prime_11.
  - lia.
  - vm_compute. reflexivity.
  - lia.
  - vm_compute. reflexivity.
Defined.


(** ** The voting booth *)

Lemma castVote_cast_on (id0 : Z) (vote0 : VotingPanel.Vote) (pk : PaillierPublicKey)
      (voters : list VotingPanel.VoterData) :
  forall t t' voters',
    VotingPanel.castVote id0 vote0 voters pk t = Some (Ret voters', t') ->
    Forall2 (cast_on id0 vote0) voters voters'.
Proof.
  induction voters as [|voter rest IH]; intros t t' voters' Hrun;
    cbn [VotingPanel.castVote] in Hrun.
  - injection Hrun as <- _. constructor.
  - destruct (Z.eqb_spec (VotingPanel.id voter) id0) as [Hid|Hid].
    + destruct (encrypt _ pk t) as [[[e|err] t1]|]; try discriminate.
      destruct (VotingPanel.castVote id0 vote0 rest pk t1) as [[[rest'|err] t2]|] eqn:Hrest;
        try discriminate.
      injection Hrun as <- _. constructor; [|eapply IH; eassumption].
      unfold cast_on. cbn. destruct (Z.eqb_spec (VotingPanel.id voter) id0); [|contradiction].
      repeat split. now exists e.
    + destruct (VotingPanel.castVote id0 vote0 rest pk t) as [[[rest'|err] t2]|] eqn:Hrest;
        try discriminate.
      injection Hrun as <- _. constructor; [|eapply IH; eassumption].
      unfold cast_on. destruct (Z.eqb_spec (VotingPanel.id voter) id0); [contradiction|].
      repeat split.
Qed.

(** X20.  When [castVote] returns, the list has the same voters in the same
    order, with their ids and names; every voter with the given id (there
    can be several) now has the vote and an encryption of its own, and the
    other voters are unchanged. *)
Theorem castVote_changes_the_voters_with_the_id
        (id0 : Z) (vote0 : VotingPanel.Vote) (pk : PaillierPublicKey)
        (voters voters' : list VotingPanel.VoterData) (t t' : tape) :
  VotingPanel.castVote id0 vote0 voters pk t = Some (Ret voters', t') ->
  Forall2 (cast_on id0 vote0) voters voters' /\ length voters' = length voters.
Proof.
  intros Hrun. apply castVote_cast_on in Hrun. split; [exact Hrun|].
  symmetry. eapply Forall2_length. exact Hrun.
Qed.

Lemma castVote_changes_the_voters_with_the_id_witness :
  exists voters',
    VotingPanel.castVote 3 VotingPanel.Vote_1 Demo.voters pk_7_11 [x07]
    = Some (Ret voters', [])
    /\ Forall2 (cast_on 3 VotingPanel.Vote_1) Demo.voters voters'
    /\ length voters' = length Demo.voters.
Proof.
  eexists. split; [vm_compute; reflexivity|].
  apply (castVote_changes_the_voters_with_the_id 3 VotingPanel.Vote_1 pk_7_11
           Demo.voters _ [x07] []).
  vm_compute. reflexivity.
Defined.



Lemma demo_ballots_ok : ballots_ok (7 * 11) (lambda_of 7 11) Demo.voters.
Proof.
  repeat constructor; unfold ballot_ok, encodes; cbn; try lia;
    vm_compute; reflexivity.
Qed.


(** ** The tally *)

(** The non-null assertion of [computeHomomorphicSum] holds: every voter of
    [votedVoters] contributes a ciphertext. *)
Lemma length_ciphertexts_votedVoters (voters : list VotingPanel.VoterData) :
  length (VoteTally.ciphertexts (VoteTally.votedVoters voters))
  = length (VoteTally.votedVoters voters).
Proof.
  induction voters as [|v voters IH]; [reflexivity|].
  unfold VoteTally.votedVoters in *. cbn [filter].
  destruct (VotingPanel.vote v), (VotingPanel.encryption v) as [e|] eqn:He;
    cbn [VoteTally.ciphertexts flat_map length app]; trivial.
  rewrite He. cbn [length app]. unfold VoteTally.ciphertexts in IH. now rewrite IH.
Qed.

Lemma voted_ciphertexts_encode (n lambda : Z) (voters : list VotingPanel.VoterData) :
  ballots_ok n lambda voters ->
  Forall2 (encodes n lambda)
          (VoteTally.ciphertexts (VoteTally.votedVoters voters)) (cast_votes voters)
  /\ fold_right Z.add 0 (cast_votes voters)
     = Z.of_nat (VoteTally.actualYesCount voters).
Proof.
  induction 1 as [|v voters Hv _ [IH1 IH2]]; [split; [constructor|reflexivity]|].
  unfold ballot_ok in Hv.
  unfold VoteTally.votedVoters, VoteTally.actualYesCount, cast_votes in *.
  cbn [filter flat_map].
  destruct (VotingPanel.vote v) as [b|], (VotingPanel.encryption v) as [e|] eqn:He;
    try contradiction.
  - cbn [VoteTally.ciphertexts flat_map app]. rewrite He. cbn [app].
    split; [constructor; [exact Hv|exact IH1]|].
    cbn [fold_right]. rewrite IH2. destruct b; cbn [VotingPanel.BigInt length]; lia.
  - split; [exact IH1|]. cbn [app]. exact IH2.
Qed.

Lemma encodes_nonzero (n lambda c k : Z) :
  1 < n -> 0 < lambda -> encodes n lambda c k -> c <> 0.
Proof.
  intros Hn Hl [_ Hcode] ->.
  rewrite Z.pow_0_l, Z.mod_0_l in Hcode by nia.
  assert (H1 : (1 + k * lambda * n) mod n = 1).
  { rewrite Z.mod_add, Z.mod_1_l by lia. reflexivity. }
  rewrite <- (Z.mod_mod_divide _ (n * n) n), <- Hcode in H1 by (exists n; reflexivity).
  rewrite Z.mod_0_l in H1 by lia. discriminate.
Qed.

Lemma decryptWithSteps_encoded (n lambda : Z) (sk : PaillierPrivateKey) (c k : Z) :
  1 < n -> 0 <= lambda ->
  sk_lambda sk = lambda -> sk_n sk = n -> sk_nSquared sk = n * n ->
  0 <= sk_mu sk -> (lambda * sk_mu sk) mod n = 1 ->
  encodes n lambda c k ->
  exists ds, decryptWithSteps c sk = Ret ds /\ ds_message ds = k mod n.
Proof.
  intros Hn1 Hlam Hl Hn Hnn Hmu Hinv Hcode.
  pose proof (decrypt_encoded n lambda Hn1 Hlam sk c k Hl Hn Hnn Hmu Hinv Hcode) as Hdec.
  unfold decrypt in Hdec. unfold decryptWithSteps.
  destruct (modPow c (sk_lambda sk) (sk_nSquared sk)) as [cl|]; [|discriminate].
  cbn [bind] in *. destruct (L cl (sk_n sk)) as [lv|]; [|discriminate].
  cbn [bind] in *. cbn zeta.
  destruct (bigint_rem (lv * sk_mu sk) (sk_n sk)) as [m|]; [|discriminate].
  cbn [bind] in *. injection Hdec as ->.
  eexists. split; reflexivity.
Qed.

(** X22.  The tally is right: under a key pair returned by
    [generateKeyPair] on distinct primes, with the ballots in order, at
    least one vote cast and fewer yes votes than [n],
    [computeHomomorphicSum] stores an aggregate ciphertext that is not 0
    (so the test [!encryptedSum] of [decryptSum] lets it through), and
    [decryptSum] then shows the number of yes votes, which [isCorrect]
    confirms. *)
Theorem tally_counts_the_yes_votes
        (p q : Z) (kp : PaillierKeyPair) (voters : list VotingPanel.VoterData)
        (st : VoteTally.State) :
  Z.prime p -> Z.prime q -> p <> q ->
  generateKeyPair p q = Ret kp ->
  ballots_ok (p * q) (lambda_of p q) voters ->
  VoteTally.votedVoters voters <> [] ->
  Z.of_nat (VoteTally.actualYesCount voters) < p * q ->
  exists c st1 st2,
    VoteTally.computeHomomorphicSum (publicKey kp) voters st = Ret st1
    /\ VoteTally.encryptedSum st1 = Some c /\ c <> 0
    /\ VoteTally.decryptSum (privateKey kp) st1 = Ret st2
    /\ VoteTally.decryptedSum st2 = Some (Z.of_nat (VoteTally.actualYesCount voters))
    /\ VoteTally.showDecryption st2 = true
    /\ VoteTally.isCorrect voters st2 = true.
Proof.
  intros Hp Hq Hpq Hkp Hok Hvoted Hcount.
  destruct (primes_ge_2 p q Hp Hq) as [Hp2 Hq2].
  assert (Hn1 : 1 < p * q) by nia.
  pose proof (lambda_pos p q Hp Hq) as Hlpos. fold (lambda_of p q) in Hlpos.
  apply generateKeyPair_inv in Hkp as (_ & Hpk & Hl & Hn & Hnn & Hmu & Hinv); trivial.
  destruct (voted_ciphertexts_encode _ _ voters Hok) as [Hall Hsum].
  pose proof (length_ciphertexts_votedVoters voters) as Hlen.
  unfold VoteTally.computeHomomorphicSum.
  destruct (VoteTally.ciphertexts (VoteTally.votedVoters voters)) as [|c0 cs] eqn:Hcs.
  { destruct (VoteTally.votedVoters voters); [contradiction|discriminate]. }
  inversion Hall as [|? k0 ? ks Hc0 Hrest Heq1 Heq2]; subst.
  destruct (fold_encodes (p * q) (lambda_of p q) (publicKey kp) cs ks Hn1
              ltac:(lia) ltac:(rewrite Hpk; reflexivity) Hrest c0 k0 Hc0)
    as (c & Hfold & Hcode).
  rewrite <- Heq2 in Hsum. cbn [fold_right] in Hsum. rewrite Hsum in Hcode.
  pose proof (encodes_nonzero _ _ _ _ Hn1 Hlpos Hcode) as Hnz.
  destruct (decryptWithSteps_encoded (p * q) (lambda_of p q) (privateKey kp) c _
              Hn1 ltac:(lia) Hl Hn Hnn (proj1 Hmu) Hinv Hcode) as (ds & Hds & Hmsg).
  rewrite Z.mod_small in Hmsg by lia.
  cbn [computeHomomorphicSum]. rewrite Hfold. cbn [bind].
  eexists c, _, _. split; [reflexivity|]. split; [reflexivity|]. split; [exact Hnz|].
  unfold VoteTally.decryptSum. cbn [VoteTally.encryptedSum].
  destruct (Z.eqb_spec c 0); [contradiction|].
  rewrite Hds. cbn [bind]. split; [reflexivity|].
  unfold VoteTally.isCorrect. cbn. rewrite Hmsg, Z.eqb_refl.
  repeat split.
Qed.

Lemma tally_counts_the_yes_votes_witness :
  exists c st1 st2,
    VoteTally.computeHomomorphicSum (publicKey kp_7_11) Demo.voters VoteTally.initialState
    = Ret st1
    /\ VoteTally.encryptedSum st1 = Some c /\ c <> 0
    /\ VoteTally.decryptSum (privateKey kp_7_11) st1 = Ret st2
    /\ VoteTally.decryptedSum st2 = Some (Z.of_nat (VoteTally.actualYesCount Demo.voters))
    /\ VoteTally.showDecryption st2 = true
    /\ VoteTally.isCorrect Demo.voters st2 = true.
Proof.
  apply (tally_counts_the_yes_votes 7 11 kp_7_11 Demo.voters VoteTally.initialState).
  - exact prime_7.
  - exact prime_11.
  - lia.
  - vm_compute. reflexivity.
  - exact demo_ballots_ok.
  - discriminate.
  - cbn. lia.
Defined.



(** X24.  The counters of the booth add up, [votedCount = yesCount +
    noCount], none exceeds the number of voters, and the tally's
    [actualYesCount] is the booth's [yesCount]. *)
Theorem counters_add_up (voters : list VotingPanel.VoterData) :
  VotingPanel.votedCount voters
  = (VotingPanel.yesCount voters + VotingPanel.noCount voters)%nat
  /\ (VotingPanel.votedCount voters <= length voters)%nat
  /\ VoteTally.actualYesCount voters = VotingPanel.yesCount voters
  /\ (length (VoteTally.votedVoters voters) <= VotingPanel.votedCount voters)%nat.
Proof.
  unfold VotingPanel.votedCount, VotingPanel.yesCount, VotingPanel.noCount,
    VoteTally.actualYesCount, VoteTally.votedVoters.
  induction voters as [|v voters (IH1 & IH2 & IH3 & IH4)]; [repeat split; cbn; lia|].
  cbn [filter].
  destruct (VotingPanel.vote v) as [[|]|], (VotingPanel.encryption v);
    cbn [length]; repeat split; lia.
Qed.

(** ** The display of big integers *)

Lemma string_length_append (s1 s2 : String.string) :
  String.length (String.append s1 s2) = (String.length s1 + String.length s2)%nat.
Proof.
  induction s1 as [|c s1 IH]; [reflexivity|]. cbn. now rewrite IH.
Qed.

Lemma string_length_substring (s : String.string) :
  forall n m, (n + m <= String.length s)%nat ->
              String.length (String.substring n m s) = m.
Proof.
  induction s as [|c s IH]; intros n m Hle; cbn in Hle.
  - assert (n = 0%nat) by lia. assert (m = 0%nat) by lia. subst. reflexivity.
  - destruct n as [|n]; cbn.
    + destruct m as [|m]; [reflexivity|]. cbn. rewrite IH by lia. reflexivity.
    + apply IH. lia.
Qed.

(** X25.  Both [formatBigInt] functions bound the width of what is shown:
    the booth's gives at most 19 characters and leaves a number of up to 16
    characters as it is; the tally's gives at most 27 and leaves up to 24
    characters as they are. *)
Theorem formatBigInt_bounds_the_width (n : Z) :
  ((String.length (VotingPanel.formatBigInt n) <= 19)%nat
   /\ ((String.length (VotingPanel.toString n) <= 16)%nat ->
       VotingPanel.formatBigInt n = VotingPanel.toString n)
   /\ ((16 < String.length (VotingPanel.toString n))%nat ->
       String.length (VotingPanel.formatBigInt n) = 19%nat))
  /\ ((String.length (VoteTally.formatBigInt n) <= 27)%nat
      /\ ((String.length (VotingPanel.toString n) <= 24)%nat ->
          VoteTally.formatBigInt n = VotingPanel.toString n)
      /\ ((24 < String.length (VotingPanel.toString n))%nat ->
          String.length (VoteTally.formatBigInt n) = 27%nat)).
Proof.
  unfold VotingPanel.formatBigInt, VoteTally.formatBigInt,
    VotingPanel.slice_first, VotingPanel.slice_last.
  cbn zeta. set (str := VotingPanel.toString n).
  split.
  - destruct (Nat.ltb_spec 16 (String.length str)) as [Hlong|Hshort].
    + rewrite !string_length_append, !string_length_substring by lia.
      cbn. repeat split; lia.
    + repeat split; lia.
  - destruct (Nat.ltb_spec 24 (String.length str)) as [Hlong|Hshort].
    + rewrite !string_length_append, !string_length_substring by lia.
      cbn. repeat split; lia.
    + repeat split; lia.
Qed.

Module DisplayExamples.
Import String.
Local Open Scope string_scope.

Example formatBigInt_long :
  VotingPanel.formatBigInt 12345678901234567890 = "12345678...34567890"
  /\ VotingPanel.formatBigInt 1234567890123456 = "1234567890123456"
  /\ VoteTally.formatBigInt (- 12345678901234567890123456)
     = "-12345678901...567890123456".
Proof. vm_compute. repeat split. Qed.

End DisplayExamples.

(** ** The modular inverse of a negative number *)

(** X26.  For every integer [a], negative ones included, and [md >= 1]: a
    value returned by [modInverse] is the inverse of [a] in [[0, md)]. On a
    negative [a] the call can throw although the inverse exists, because
    [extendedGcd] then reports the gcd as [-1]: [modInverse(-1, md)] throws
    for every [md >= 2]. *)
Theorem modInverse_on_all_integers (a md : Z) :
  1 <= md ->
  (forall x, modInverse a md = Ret x -> 0 <= x < md /\ (a * x) mod md = 1 mod md)
  /\ (2 <= md -> modInverse (-1) md = Throw Error_ModularInverseDoesNotExist).
Proof.
  intros Hmd. split.
  - intros x Hrun. unfold modInverse in Hrun.
    rewrite bigint_rem_nonzero in Hrun by lia. cbn [bind] in Hrun. cbn zeta in Hrun.
    pose proof (extendedGcd_bezout (Z.rem a md) md) as Hbz.
    destruct (Z.eqb_spec (eg_gcd (extendedGcd (Z.rem a md) md)) 1) as [Hg|];
      [|discriminate].
    cbn [negb] in Hrun. rewrite bigint_rem_nonzero in Hrun by lia.
    cbn [bind] in Hrun. rewrite bigint_rem_nonzero, rem_normalise in Hrun by lia.
    injection Hrun as <-. split; [apply Z.mod_pos_bound; lia|].
    rewrite Hg in Hbz. pose proof (Z.quot_rem' a md) as Hqr.
    rewrite Z.mul_mod_idemp_r by lia.
    set (X := eg_x (extendedGcd (Z.rem a md) md)) in *.
    set (Y := eg_y (extendedGcd (Z.rem a md) md)) in *.
    replace (a * X) with (1 + (Z.quot a md * X - Y) * md) by nia.
    apply Z.mod_add. lia.
  - intros Hmd2. unfold modInverse.
    rewrite bigint_rem_nonzero by lia. cbn [bind]. cbn zeta.
    assert (Hrem : Z.rem (-1) md = -1) by (apply Z.rem_small_iff; lia).
    rewrite Hrem, extendedGcd_step.
    destruct (Z.eq_dec (-1) 0) as [|_]; [lia|]. cbn zeta. cbn [eg_gcd].
    assert (Hrem' : Z.rem md (-1) = 0).
    { replace (-1) with (- (1)) by reflexivity.
      rewrite Z.rem_opp_r by lia. apply Z.rem_1_r. }
    rewrite Hrem', extendedGcd_step.
    destruct (Z.eq_dec 0 0) as [_|]; [|lia]. reflexivity.
Qed.

Lemma modInverse_on_all_integers_witness :
  (forall x, modInverse (-2) 5 = Ret x -> 0 <= x < 5 /\ (-2 * x) mod 5 = 1 mod 5)
  /\ (2 <= 5 -> modInverse (-1) 5 = Throw Error_ModularInverseDoesNotExist).
Proof. apply (modInverse_on_all_integers (-2) 5). lia. Defined.

Example modInverse_negative :
  modInverse (-2) 5 = Ret 2
  /\ modInverse (-1) 5 = Throw Error_ModularInverseDoesNotExist.
Proof. vm_compute. split; reflexivity. Qed.
